(** * Gallery template: staggered reveal, lazy loading and modal choreography

    A shallow embedding of the two versions of the gallery page template,

      - [src/templates/galleries.js]  (module [Galleries]) and
      - [unnamed/part_000], a second version of the same template (module
        [Part000]),

    together with the small part of the browser and of React they run on:
    JavaScript numbers and values, the DOM store, the timer queue, and the
    element tree returned by the component.

    Numbers.  A JavaScript Number is embedded as an exact rational extended
    with the two infinities and NaN.  Finite arithmetic is exact: the rounding
    of binary64, overflow and the sign of zero are not represented (every zero
    divisor behaves as [+0]).  All other special cases of [+ - * /], of [<]
    and of [===] follow ECMAScript.

    The page.  Elements live in a store indexed by node, so that two names
    of one element (the active card, a ref, a child of the modal) see the
    same updates.  The offsets of an element are integers, as the DOM gives
    them; they are inputs, not recomputed from the styles.  A [transform] is
    kept as the list of its functions rather than as CSS text.

    Control.  A computation threads the world and may end in a TypeError
    (a property read on null or undefined), keeping the updates made before
    it.  The closures given to [setTimeout] are data, each with the
    variables it captures, and are run by [run_callback].  The two helpers
    imported from [../utils] are not among the sources and are Section
    variables. *)

From Stdlib Require Import QArith Qfield Lqa ZArith Lia.
From Stdlib Require Import Ascii String DecimalString DecimalNat.
From stdpp Require Import gmap strings list fin_maps.

Open Scope Q_scope.

(** ** JavaScript numbers *)

Inductive number : Type :=
  | Fin (q : Q)
  | PosInf
  | NegInf
  | NaN.

Definition num_of_Z (z : Z) : number := Fin (inject_Z z).
Definition num_of_nat (n : nat) : number := num_of_Z (Z.of_nat n).

Definition num_neg (x : number) : number :=
  match x with
  | Fin q => Fin (- q)
  | PosInf => NegInf
  | NegInf => PosInf
  | NaN => NaN
  end.

Definition num_add (x y : number) : number :=
  match x, y with
  | NaN, _ | _, NaN => NaN
  | Fin a, Fin b => Fin (a + b)
  | PosInf, NegInf | NegInf, PosInf => NaN
  | PosInf, _ | _, PosInf => PosInf
  | NegInf, _ | _, NegInf => NegInf
  end.

Definition num_sub (x y : number) : number := num_add x (num_neg y).

(** [signed c x]: [x] with its sign multiplied by the sign [c] of a finite
    operand; a zero operand against an infinity gives NaN. *)
Definition signed (c : comparison) (x : number) : number :=
  match c with
  | Eq => NaN
  | Gt => x
  | Lt => num_neg x
  end.

Definition num_mul (x y : number) : number :=
  match x, y with
  | NaN, _ | _, NaN => NaN
  | Fin a, Fin b => Fin (a * b)
  | Fin a, inf => signed (a ?= 0) inf
  | inf, Fin b => signed (b ?= 0) inf
  | PosInf, PosInf | NegInf, NegInf => PosInf
  | PosInf, NegInf | NegInf, PosInf => NegInf
  end.

Definition num_div (x y : number) : number :=
  match x, y with
  | NaN, _ | _, NaN => NaN
  | Fin a, Fin b =>
      if Qeq_bool b 0
      then match a ?= 0 with Eq => NaN | Gt => PosInf | Lt => NegInf end
      else Fin (a / b)
  | Fin _, _ => Fin 0
  | inf, Fin b => match b ?= 0 with Lt => num_neg inf | _ => inf end
  | _, _ => NaN
  end.

(** [x < y] *)
Definition num_ltb (x y : number) : bool :=
  match x, y with
  | NaN, _ | _, NaN => false
  | Fin a, Fin b => match a ?= b with Lt => true | _ => false end
  | NegInf, NegInf | PosInf, _ | _, NegInf => false
  | NegInf, _ | _, PosInf => true
  end.

(** [x === y] on numbers *)
Definition num_eqb (x y : number) : bool :=
  match x, y with
  | Fin a, Fin b => Qeq_bool a b
  | PosInf, PosInf | NegInf, NegInf => true
  | _, _ => false
  end.

Declare Scope num_scope.
Delimit Scope num_scope with num.
Bind Scope num_scope with number.
Infix "+" := num_add : num_scope.
Infix "-" := num_sub : num_scope.
Infix "*" := num_mul : num_scope.
Infix "/" := num_div : num_scope.
Infix "<?" := num_ltb : num_scope.
Infix "===" := num_eqb (at level 70, no associativity) : num_scope.

(** A decimal literal [m / 10^k] of the source text, e.g. [3.666] is
    [lit 3666 3]. *)
Definition lit (m : Z) (k : nat) : number :=
  Fin (inject_Z m / inject_Z (10 ^ Z.of_nat k)).

(** ** JavaScript values, truthiness and [ToNumber] *)

Inductive value : Type :=
  | VUndefined
  | VNull
  | VNum (n : number)
  | VStr (s : string).

(** *** [StringToNumber] *)

(** White space and line terminators, among the ASCII characters: TAB, LF,
    VT, FF, CR and the space. *)
Definition is_space (c : ascii) : bool :=
  let n := nat_of_ascii c in
  (n =? 9)%nat || (n =? 10)%nat || (n =? 11)%nat || (n =? 12)%nat
  || (n =? 13)%nat || (n =? 32)%nat.

Fixpoint skip_spaces (s : string) : string :=
  match s with
  | String c r => if is_space c then skip_spaces r else s
  | EmptyString => EmptyString
  end.

Fixpoint all_spaces (s : string) : bool :=
  match s with
  | String c r => is_space c && all_spaces r
  | EmptyString => true
  end.

(** Drops the white space that ends the string. *)
Fixpoint drop_end_spaces (s : string) : string :=
  match s with
  | String c r => if all_spaces s then EmptyString else String c (drop_end_spaces r)
  | EmptyString => EmptyString
  end.

Definition trim (s : string) : string := drop_end_spaces (skip_spaces s).

(** The value of a digit in a base up to 16, when it is one. *)
Definition digit_of (base : nat) (c : ascii) : option nat :=
  let n := nat_of_ascii c in
  let d :=
    if (48 <=? n)%nat && (n <=? 57)%nat then Some (n - 48)%nat
    else if (97 <=? n)%nat && (n <=? 102)%nat then Some (n - 87)%nat
    else if (65 <=? n)%nat && (n <=? 70)%nat then Some (n - 55)%nat
    else None in
  match d with
  | Some v => if (v <? base)%nat then Some v else None
  | None => None
  end.

(** Reads the longest run of digits that starts [s]: the number read (from
    [acc]), how many digits there were, and what follows them. *)
Fixpoint read_digits (base : nat) (s : string) (acc : nat) (count : nat)
  : nat * nat * string :=
  match s with
  | String c r =>
      match digit_of base c with
      | Some d => read_digits base r (base * acc + d) (S count)
      | None => (acc, count, s)
      end
  | EmptyString => (acc, count, s)
  end.

(** [m * 10^e] *)
Definition scale10 (m : nat) (e : Z) : Q :=
  inject_Z (Z.of_nat m) * Qpower 10 e.

(** The exponent part [e], [e+] or [e-] and digits, up to the end of the
    string; [Some 0] when there is none. *)
Definition read_exponent (s : string) : option Z :=
  match s with
  | EmptyString => Some 0%Z
  | String c r =>
      if (nat_of_ascii c =? 101)%nat || (nat_of_ascii c =? 69)%nat then
        let '(neg, r') :=
          match r with
          | String "+"%char t => (false, t)
          | String "-"%char t => (true, t)
          | _ => (false, r)
          end in
        match read_digits 10 r' 0 0 with
        | (_, O, _) => None
        | (e, _, EmptyString) =>
            Some (if neg then (- Z.of_nat e)%Z else Z.of_nat e)
        | _ => None
        end
      else None
  end.

(** [StrUnsignedDecimalLiteral] other than [Infinity]. *)
Definition read_unsigned_decimal (s : string) : option Q :=
  let '(ip, n1, r1) := read_digits 10 s 0 0 in
  match r1 with
  | String "."%char r2 =>
      let '(m, n2, r3) := read_digits 10 r2 ip 0 in
      if ((n1 + n2)%nat =? 0)%nat then None
      else match read_exponent r3 with
           | Some e => Some (scale10 m (e - Z.of_nat n2))
           | None => None
           end
  | _ =>
      if (n1 =? 0)%nat then None
      else match read_exponent r1 with
           | Some e => Some (scale10 ip e)
           | None => None
           end
  end.

Definition read_radix (base : nat) (s : string) : number :=
  match read_digits base s 0 0 with
  | (_, O, _) => NaN
  | (v, _, EmptyString) => num_of_nat v
  | _ => NaN
  end.

Definition read_unsigned (s : string) : number :=
  if String.eqb s "Infinity" then PosInf
  else match read_unsigned_decimal s with
       | Some q => Fin q
       | None => NaN
       end.

Definition StrNumericLiteral (t : string) : number :=
  match t with
  | EmptyString => Fin 0
  | String "+"%char r => read_unsigned r
  | String "-"%char r => num_neg (read_unsigned r)
  | String "0"%char (String "x"%char r) | String "0"%char (String "X"%char r) =>
      read_radix 16 r
  | String "0"%char (String "o"%char r) | String "0"%char (String "O"%char r) =>
      read_radix 8 r
  | String "0"%char (String "b"%char r) | String "0"%char (String "B"%char r) =>
      read_radix 2 r
  | _ => read_unsigned t
  end.

Definition StringToNumber (s : string) : number := StrNumericLiteral (trim s).

Definition ToNumber (v : value) : number :=
  match v with
  | VUndefined => NaN
  | VNull => Fin 0
  | VNum n => n
  | VStr s => StringToNumber s
  end.

(** [Number(v)] *)
Definition Number (v : value) : number := ToNumber v.

(** [String(i)] for an array index [i]: an integer below [10^21] prints as
    its decimal digits. *)
Definition String_of_index (i : nat) : string :=
  NilZero.string_of_uint (Nat.to_uint i).

Close Scope Q_scope.

(** ** The DOM store *)

Abbreviation Node := nat (only parsing).

(** A CSS [transform] value, as the list of its transform functions.  The
    source writes it as text; the embedding keeps the parsed form. *)
Inductive transform_fn : Type :=
  | Translate (x y : number)
  | ScaleX (s : number)
  | ScaleY (s : number)
  | Scale (s : number).

(** The inline style of an element: its [transform] ([[]] when there is
    none) and its other declarations. *)
Record style : Type := mkStyle {
  transform : list transform_fn;
  declarations : list (string * string)
}.

(** [element.style = ''] *)
Definition empty_style : style := mkStyle [] [].

Record element : Type := mkElement {
  offsetLeft : Z;
  offsetTop : Z;
  offsetWidth : Z;
  offsetHeight : Z;
  rectTop : number;               (* getBoundingClientRect().top *)
  classList : list string;
  inline : style;                 (* element.style *)
  dataset : gmap string string;
  childNodes : list Node
}.

Definition set_inline (s : style) (e : element) : element :=
  mkElement (offsetLeft e) (offsetTop e) (offsetWidth e) (offsetHeight e)
    (rectTop e) (classList e) s (dataset e) (childNodes e).

Definition set_classList (l : list string) (e : element) : element :=
  mkElement (offsetLeft e) (offsetTop e) (offsetWidth e) (offsetHeight e)
    (rectTop e) l (inline e) (dataset e) (childNodes e).

(** [e.style.transform = t] *)
Definition set_transform (t : list transform_fn) (e : element) : element :=
  set_inline (mkStyle t (declarations (inline e))) e.

(** [e.style = ''] *)
Definition clear_style (e : element) : element := set_inline empty_style e.

Definition has_class (c : string) (e : element) : bool :=
  bool_decide (c ∈ classList e).

(** [e.classList.add(c)] *)
Definition classList_add (c : string) (e : element) : element :=
  if has_class c e then e else set_classList (classList e ++ [c]) e.

(** [e.classList.remove(c)] *)
Definition classList_remove (c : string) (e : element) : element :=
  set_classList (List.filter (fun x => negb (String.eqb x c)) (classList e)) e.

(** The scale a transform list applies on each axis. *)
Definition factor_x (f : transform_fn) : number :=
  match f with
  | ScaleX s | Scale s => s
  | Translate _ _ | ScaleY _ => Fin 1
  end.

Definition factor_y (f : transform_fn) : number :=
  match f with
  | ScaleY s | Scale s => s
  | Translate _ _ | ScaleX _ => Fin 1
  end.

Definition scale_x (t : list transform_fn) : number :=
  foldr (fun f acc => num_mul (factor_x f) acc) (Fin 1) t.

Definition scale_y (t : list transform_fn) : number :=
  foldr (fun f acc => num_mul (factor_y f) acc) (Fin 1) t.


(** ** Timers, React state and the world *)

(** The closures handed to [setTimeout], each with the variables it
    captures. *)
Inductive callback : Type :=
  | AddClass (n : Node) (c : string)
      (* () => card.classList.add(c) *)
  | GalleriesExpand (modalHeight modalWidth : number) (modal container : Node)
      (* galleries.js, lines 88-102 *)
  | Part000Expand (modal container : Node) (modalParent : option Node).
      (* part_000, lines 55-65 *)

Record world : Type := mkWorld {
  dom : gmap nat element;
  document_order : list Node;     (* the elements of the page, in tree order *)
  body : Node;                    (* document.body *)
  scrollY : number;               (* window.scrollY *)
  timers : list (number * callback);
  activeCard : option Node;       (* useState(null) *)
  cardRefs : list (option Node);  (* images.map(image => useRef(null)) *)
  modalRef : option Node;
  parentRef : option Node         (* galleryCardsRef / modalParentRef *)
}.

Definition set_dom (d : gmap nat element) (w : world) : world :=
  mkWorld d (document_order w) (body w) (scrollY w) (timers w)
    (activeCard w) (cardRefs w) (modalRef w) (parentRef w).

Definition set_timers (t : list (number * callback)) (w : world) : world :=
  mkWorld (dom w) (document_order w) (body w) (scrollY w) t
    (activeCard w) (cardRefs w) (modalRef w) (parentRef w).

Definition set_activeCard (c : option Node) (w : world) : world :=
  mkWorld (dom w) (document_order w) (body w) (scrollY w) (timers w)
    c (cardRefs w) (modalRef w) (parentRef w).

(** ** Computations: state and exceptions *)

Inductive completion (A : Type) : Type :=
  | Normal (a : A)
  | TypeError.
Arguments Normal {A} a.
Arguments TypeError {A}.

Definition M (A : Type) : Type := world -> completion A * world.

Definition ret {A} (a : A) : M A := fun w => (Normal a, w).

Definition bind {A B} (m : M A) (k : A -> M B) : M B :=
  fun w =>
    match m w with
    | (Normal a, w') => k a w'
    | (TypeError, w') => (TypeError, w')
    end.

Declare Scope js_scope.
Delimit Scope js_scope with js.
Notation "x <- m ;; k" := (bind m (fun x => k))
  (at level 100, m at level 99, right associativity) : js_scope.
Notation "m ;; k" := (bind m (fun _ => k))
  (at level 100, right associativity) : js_scope.
Open Scope js_scope.

Definition throw {A} : M A := fun w => (TypeError, w).

(** Reading a property of [o]: a TypeError when [o] is null or undefined. *)
Definition deref {A} (o : option A) : M A :=
  match o with
  | Some a => ret a
  | None => throw
  end.

Definition read {A} (f : world -> A) : M A := fun w => (Normal (f w), w).

Definition getElement (n : Node) : M element :=
  fun w => deref (dom w !! n) w.

Definition modifyElement (n : Node) (f : element -> element) : M unit :=
  e <- getElement n ;;
  fun w => (Normal tt, set_dom (<[n := f e]> (dom w)) w).

(** [setTimeout(cb, t)] *)
Definition setTimeout (cb : callback) (t : number) : M unit :=
  fun w => (Normal tt, set_timers (timers w ++ [(t, cb)]) w).

(** [l.forEach((x, index) => f(x, index))] *)
Fixpoint forEach_from {A} (f : A -> nat -> M unit) (l : list A) (i : nat)
  : M unit :=
  match l with
  | [] => ret tt
  | x :: r => f x i ;; forEach_from f r (S i)
  end.

Definition forEach {A} (l : list A) (f : A -> nat -> M unit) : M unit :=
  forEach_from f l 0.

(** [[...document.querySelectorAll('.' + c)]] *)
Definition querySelectorAll (c : string) : M (list Node) :=
  read (fun w =>
    List.filter
      (fun n => match dom w !! n with
                | Some e => has_class c e
                | None => false
                end)
      (document_order w)).

Record IntersectionObserverEntry : Type := mkEntry {
  isIntersecting : bool;
  target : Node
}.

(** ** The page query result and the element tree *)

Set Warnings "-register-all".

Record sharpData : Type := mkSharp { src : string; srcSet : string }.
Record imageSharp : Type := mkImageSharp { fixed : sharpData; fluid : sharpData }.
Record fileNode : Type := mkFileNode { base : string; childImageSharp : imageSharp }.
Record edge : Type := mkEdge { node : fileNode }.
Record frontmatterData : Type := mkFrontmatter { title : string }.
Record remark : Type := mkRemark { html : string; frontmatter : frontmatterData }.
Record fileConnection : Type := mkFiles { edges : list edge }.
Record pageData : Type := mkData { markdownRemark : remark; allFile : fileConnection }.

(** The refs of the component and its two event handlers. *)
Inductive ref : Type :=
  | CardRef (index : nat)         (* cardRefs[index] *)
  | ModalRef                      (* modalRef *)
  | ParentRef.                    (* galleryCardsRef / modalParentRef *)

Inductive handler : Type :=
  | OnClickCard (index : nat)     (* e => setActiveCard(cardRefs[index].current) *)
  | OnMouseDownCard (index : nat). (* e => (cardRefs[index].current.style = '') *)

Inductive prop : Type :=
  | PStr (s : string)
  | PNum (n : number)
  | PNull
  | PRef (r : ref)
  | PHandler (h : handler)
  | PImages (l : list edge)
  | PFluid (f : sharpData)
  | PHtml (s : string).           (* {{ __html: s }} *)

Inductive vnode : Type :=
  | Element (tag : string) (props : list (string * prop)) (children : list vnode)
  | Text (s : string).

(** [s.split(c)[0]] *)
Fixpoint before (c : ascii) (s : string) : string :=
  match s with
  | EmptyString => EmptyString
  | String a r => if Ascii.eqb a c then EmptyString else String a (before c r)
  end.

(** [e.dataset[k]] *)
Definition dataset_get (k : string) (e : element) : value :=
  match dataset e !! k with
  | Some s => VStr s
  | None => VUndefined
  end.

Definition handle (h : handler) : M unit :=
  match h with
  | OnClickCard index =>
      refs <- read cardRefs ;;
      current <- deref (refs !! index) ;;
      fun w => (Normal tt, set_activeCard current w)
  | OnMouseDownCard index =>
      refs <- read cardRefs ;;
      current <- deref (refs !! index) ;;
      card <- deref current ;;
      modifyElement card clear_style
  end.

(** The JSX returned by the component: lines 105-141 of galleries.js and
    121-157 of part_000, the same text but for the name of the ref of the
    cards' container. *)
Definition gallery_card (index : nat) (image : edge) : vnode :=
  Element "div"
    [("className", PStr "gallery__card-container"); ("key", PNum (num_of_nat index))]
    [Element "div"
       [("className", PStr "gallery__card observable");
        ("data-index", PNum (num_of_nat index));
        ("data-node-base", PStr (base (node image)));
        ("data-observer-root-margin", PStr "0px 0px 25%");
        ("onClick", PHandler (OnClickCard index));
        ("onMouseDown", PHandler (OnMouseDownCard index));
        ("ref", PRef (CardRef index))]
       [Element "Img"
          [("alt", PStr (before "."%char (base (node image))));
           ("className", PStr "h-full w-full");
           ("fluid", PFluid (fluid (childImageSharp (node image))))]
          []]].

Definition gallery_view (cardSize modalHeight modalWidth : number)
    (data : pageData) (activeCardIndex : prop) : vnode :=
  let content := markdownRemark data in
  let images := edges (allFile data) in
  Element "section" [("className", PStr "gallery")]
    [Element "div" []
       [Element "h1" [] [Text (title (frontmatter content))];
        Element "div" [("dangerouslySetInnerHTML", PHtml (html content))] []];
     Element "div" [("className", PStr "gallery__cards"); ("ref", PRef ParentRef)]
       (Element "GalleryModal"
          [("activeCardIndex", activeCardIndex);
           ("cardSize", PNum cardSize);
           ("height", PNum modalHeight);
           ("images", PImages images);
           ("ref", PRef ModalRef);
           ("width", PNum modalWidth)]
          []
        :: imap gallery_card images)].

(** The component's render: [activeCardIndex] is
    [activeCard && Number(activeCard.dataset.index)]. *)
Definition gallery_render (cardSize modalHeight modalWidth : number)
    (data : pageData) : M vnode :=
  card <- read activeCard ;;
  activeCardIndex <-
    match card with
    | None => ret PNull
    | Some c => e <- getElement c ;; ret (PNum (Number (dataset_get "index" e)))
    end ;;
  ret (gallery_view cardSize modalHeight modalWidth data activeCardIndex).

(** *** Looking into an element tree *)

Definition props_of (v : vnode) : list (string * prop) :=
  match v with
  | Element _ props _ => props
  | Text _ => []
  end.

Definition children_of (v : vnode) : list vnode :=
  match v with
  | Element _ _ children => children
  | Text _ => []
  end.

Definition has_tag (t : string) (v : vnode) : bool :=
  match v with
  | Element tag _ _ => String.eqb tag t
  | Text _ => false
  end.

(** The value of the first prop named [k]. *)
Definition prop_get (k : string) (props : list (string * prop)) : option prop :=
  match List.find (fun kv => String.eqb kv.1 k) props with
  | Some kv => Some kv.2
  | None => None
  end.

(** [s.split(c)] *)
Fixpoint split_on (c : ascii) (s : string) : list string :=
  match s with
  | EmptyString => [EmptyString]
  | String a r =>
      if Ascii.eqb a c then EmptyString :: split_on c r
      else match split_on c r with
           | h :: t => String a h :: t
           | [] => [String a EmptyString]
           end
  end.

(** The class names of a [className]. *)
Definition class_names (s : string) : list string :=
  List.filter (fun x => negb (String.eqb x "")) (split_on " "%char s).

Definition vnode_has_class (c : string) (v : vnode) : bool :=
  match prop_get "className" (props_of v) with
  | Some (PStr s) => existsb (String.eqb c) (class_names s)
  | _ => false
  end.

(** The elements of a tree that pass a test, in tree order. *)
Fixpoint select (p : vnode -> bool) (v : vnode) : list vnode :=
  (if p v then [v] else [])
  ++ match v with
     | Element _ _ children => List.flat_map (select p) children
     | Text _ => []
     end.

(** ** galleries.js *)

Module Galleries.
Section Constants.
(** [const cardSize = 275; const delay = 300;] and, in the component,
    [const modalHeight = 620.666; const modalWidth = 931;].  The functions
    are written over the four constants; their values follow the section. *)
Variables cardSize delay modalHeight modalWidth : number.

(** The two helpers imported from [../utils], which are not part of the
    sources at hand. *)
Variable lazyLoad : (list IntersectionObserverEntry -> M unit) -> M unit.
Variable moveElementsRelativeToMouse : string -> string -> M unit.

Definition displayGalleryCards : M unit :=
  cards <- querySelectorAll "gallery__card" ;;
  forEach cards (fun card index =>
    (* Must trigger before `observerCallback` runs: *)
    setTimeout (AddClass card "is-visible")
      ((num_of_nat index * delay) / lit 3666 3)%num).

Definition observerCallback (entries : list IntersectionObserverEntry) : M unit :=
  forEach entries (fun entry _ =>
    if isIntersecting entry
    then setTimeout (AddClass (target entry) "has-entered") (delay / num_of_Z 3)%num
    else ret tt).

(** The first effect: lines 55-65. *)
Definition cardsEffect : M unit :=
  displayGalleryCards ;;
  lazyLoad observerCallback ;;
  moveElementsRelativeToMouse "scale(1.025)" ".gallery__card-container".

(** The closure given to [setTimeout] by the modal effect: lines 88-102. *)
Definition centerX (bodyEl : element) : number :=
  (num_of_Z (offsetWidth bodyEl) / num_of_Z 2 - modalWidth / num_of_Z 2)%num.

Definition centerY (bodyEl galleryCardsEl : element) (y : number) : number :=
  (num_of_Z (offsetHeight bodyEl) / num_of_Z 2
   - modalHeight / num_of_Z 2
   - rectTop galleryCardsEl / num_of_Z 2
   + y / num_of_Z 2)%num.

Definition expandModal (modal container : Node) : M unit :=
  b <- read body ;;
  bodyEl <- getElement b ;;
  galleryCards <- (r <- read parentRef ;; deref r) ;;
  galleryCardsEl <- getElement galleryCards ;;
  y <- read scrollY ;;
  modifyElement modal (classList_add "is-active") ;;
  modifyElement modal
    (set_transform [Translate (centerX bodyEl + lit 5 1)%num
                      (centerY bodyEl galleryCardsEl y);
                    ScaleX (num_of_Z 1); ScaleY (num_of_Z 1)]) ;;
  modifyElement container
    (set_transform [ScaleX (num_of_Z 1); ScaleY (num_of_Z 1)]).

(** The second effect, "Control modal": lines 68-103. *)
Definition activeCardX (cardEl : element) : number :=
  (num_of_Z (offsetLeft cardEl) - modalWidth / num_of_Z 2
   + num_of_Z (offsetWidth cardEl) / num_of_Z 2)%num.

Definition activeCardY (cardEl : element) : number :=
  (num_of_Z (offsetTop cardEl) - modalHeight / num_of_Z 2
   + num_of_Z (offsetHeight cardEl) / num_of_Z 2)%num.

Definition modalEffect : M unit :=
  card <- read activeCard ;;
  match card with
  | None => ret tt
  | Some activeCard =>
      cardEl <- getElement activeCard ;;
      modifyElement activeCard clear_style ;;
      modal <- (r <- read modalRef ;; deref r) ;;
      modalEl <- getElement modal ;;
      let modalImageContainer := head (childNodes modalEl) in
      modifyElement modal (classList_remove "is-active") ;;
      modifyElement modal
        (set_transform [Translate (activeCardX cardEl) (activeCardY cardEl);
                        ScaleX (cardSize / modalWidth)%num;
                        ScaleY (cardSize / modalHeight)%num]) ;;
      container <- deref modalImageContainer ;;
      modifyElement container
        (set_transform [ScaleX (modalWidth / cardSize)%num;
                        ScaleY (modalHeight / cardSize)%num]) ;;
      setTimeout (GalleriesExpand modalHeight modalWidth modal container)
        (delay * num_of_Z 2)%num
  end.

Definition render (data : pageData) : M vnode :=
  gallery_render cardSize modalHeight modalWidth data.
End Constants.

Definition cardSize : number := num_of_Z 275.
Definition delay : number := num_of_Z 300. (* For animations. *)
Definition modalHeight : number := lit 620666 3. (* height / width = 0.666... *)
Definition modalWidth : number := num_of_Z 931.
End Galleries.

(** ** part_000 *)

(** React calls the function given to [useEffect] with no argument: a
    parameter it declares is [undefined]. *)
Definition invoke_effect {A} (create : value -> M A) : M A := create VUndefined.

Module Part000.
Section Utils.
Variable lazyLoad : (list IntersectionObserverEntry -> M unit) -> M unit.
Variable moveElementsRelativeToMouse : string -> string -> M unit.

Definition displayGalleryCards (delay : value) : M unit :=
  cards <- querySelectorAll "gallery__card" ;;
  forEach cards (fun card index =>
    (* Must trigger before `setObserverCallback` runs: *)
    setTimeout (AddClass card "is-visible")
      ((num_of_nat index * ToNumber delay) / lit 3666 3)%num).

Definition setObserverCallback (delay : value)
    (entries : list IntersectionObserverEntry) : M unit :=
  forEach entries (fun entry _ =>
    if isIntersecting entry
    then setTimeout (AddClass (target entry) "has-entered")
           (ToNumber delay / num_of_Z 3)%num
    else ret tt).

Definition animateCards (delay : value) : M unit :=
  displayGalleryCards delay ;;
  lazyLoad (setObserverCallback delay) ;;
  moveElementsRelativeToMouse "scale(1.025)" ".gallery__card-container".

(** The closure given to [setTimeout] by [animateModal]: lines 55-65. *)
Definition centerX (bodyEl modalEl : element) : number :=
  (num_of_Z (offsetWidth bodyEl) / num_of_Z 2
   - num_of_Z (offsetWidth modalEl) / num_of_Z 2)%num.

Definition centerY (bodyEl modalEl parentEl : element) (y : number) : number :=
  (num_of_Z (offsetHeight bodyEl) / num_of_Z 2
   - num_of_Z (offsetHeight modalEl) / num_of_Z 2
   - rectTop parentEl / num_of_Z 2
   + y / num_of_Z 2)%num.

Definition expandModal (modal container : Node) (modalParent : option Node)
  : M unit :=
  b <- read body ;;
  bodyEl <- getElement b ;;
  modalEl <- getElement modal ;;
  parent <- deref modalParent ;;
  parentEl <- getElement parent ;;
  y <- read scrollY ;;
  modifyElement modal
    (set_transform [Translate (centerX bodyEl modalEl + lit 5 1)%num
                      (centerY bodyEl modalEl parentEl y);
                    Scale (num_of_Z 1)]) ;;
  modifyElement container (set_transform [Scale (num_of_Z 1)]).

Definition targetX (modalEl targetEl : element) : number :=
  (num_of_Z (offsetLeft targetEl) - num_of_Z (offsetWidth modalEl) / num_of_Z 2
   + num_of_Z (offsetWidth targetEl) / num_of_Z 2)%num.

Definition targetY (modalEl targetEl : element) : number :=
  (num_of_Z (offsetTop targetEl) - num_of_Z (offsetHeight modalEl) / num_of_Z 2
   + num_of_Z (offsetHeight targetEl) / num_of_Z 2)%num.

Definition animateModal (delay : value) (modal modalParent target : option Node)
  : M unit :=
  match target with
  | None => ret tt
  | Some t =>
      m <- deref modal ;;
      modalEl <- getElement m ;;
      let modalImageContainer := head (childNodes modalEl) in
      targetEl <- getElement t ;;
      (* Ensure the `target` returns to its default styles. *)
      modifyElement t clear_style ;;
      (* Move the modal over the `target` and scale the modal size down to
         the `target` size. *)
      modifyElement m
        (set_transform
           [Translate (targetX modalEl targetEl) (targetY modalEl targetEl);
            ScaleX (num_of_Z (offsetWidth targetEl) / num_of_Z (offsetWidth modalEl))%num;
            ScaleY (num_of_Z (offsetHeight targetEl) / num_of_Z (offsetHeight modalEl))%num]) ;;
      container <- deref modalImageContainer ;;
      modifyElement container
        (set_transform
           [ScaleX (num_of_Z (offsetWidth modalEl) / num_of_Z (offsetWidth targetEl))%num;
            ScaleY (num_of_Z (offsetHeight modalEl) / num_of_Z (offsetHeight targetEl))%num]) ;;
      (* Move the modal to the center of the screen and expand it to its
         full size: *)
      setTimeout (Part000Expand m container modalParent)
        (ToNumber delay * num_of_Z 2)%num
  end.

Definition cardSize : number := num_of_Z 275.
Definition delay : number := num_of_Z 300. (* For animations. *)
Definition modalWidth : number := num_of_Z 931.
Definition modalHeight : number :=
  (modalWidth * (num_of_Z 2 / num_of_Z 3))%num.

(** [useEffect(animateCards)] *)
Definition cardsEffect : M unit := invoke_effect animateCards.

(** [useEffect(() => animateModal(delay, modalRef.current,
    modalParentRef.current, activeCard), [activeCard])] *)
Definition modalEffect : M unit :=
  invoke_effect (fun _ =>
    modal <- read modalRef ;;
    modalParent <- read parentRef ;;
    card <- read activeCard ;;
    animateModal (VNum delay) modal modalParent card).

Definition render (data : pageData) : M vnode :=
  gallery_render cardSize modalHeight modalWidth data.
End Utils.
End Part000.

(** ** Running a timer *)

Definition run_callback (cb : callback) : M unit :=
  match cb with
  | AddClass n c => modifyElement n (classList_add c)
  | GalleriesExpand modalHeight modalWidth modal container =>
      Galleries.expandModal modalHeight modalWidth modal container
  | Part000Expand modal container modalParent =>
      Part000.expandModal modal container modalParent
  end.

(** Runs the callbacks of a list of timers, in the order of the list. *)
Fixpoint run_callbacks (l : list (number * callback)) : M unit :=
  match l with
  | [] => ret tt
  | (_, cb) :: r => run_callback cb ;; run_callbacks r
  end.

(** * What the properties speak of *)

(** The elements [displayGalleryCards] finds. *)
Definition gallery_cards (w : world) : list Node :=
  List.filter
    (fun n => match dom w !! n with
              | Some e => has_class "gallery__card" e
              | None => false
              end)
    (document_order w).

(** The timeout given to [setTimeout] for the card at [index]. *)
Definition reveal_timeout (delay : number) (index : nat) : number :=
  ((num_of_nat index * delay) / lit 3666 3)%num.

Definition reveal_timers (delay : number) (cards : list Node)
  : list (number * callback) :=
  imap (fun index card => (reveal_timeout delay index, AddClass card "is-visible")) cards.

(** The timers the observer callback sets for a list of entries: one per
    intersecting entry, in the order of the entries. *)
Definition entry_timers (t : number) (entries : list IntersectionObserverEntry)
  : list (number * callback) :=
  List.map (fun entry => (t, AddClass (target entry) "has-entered"))
    (List.filter isIntersecting entries).

(** The later world in which a timer of the modal fires: the body, the
    modal, its image container and the element of the cards' ref [p] are in
    the page. *)
Definition ready (w : world) (m c p : Node) : Prop :=
  is_Some (dom w !! body w) /\ is_Some (dom w !! m) /\ is_Some (dom w !! c)
  /\ is_Some (dom w !! p).

(** The page once the card [t] is the active card: the card and the modal
    [m] are elements of the page, and the modal's first child is the image
    container [c]. *)
Definition card_clicked (w : world) (t m c : Node) (tel mel : element) : Prop :=
  activeCard w = Some t /\ dom w !! t = Some tel
  /\ modalRef w = Some m /\ dom w !! m = Some mel
  /\ head (childNodes mel) = Some c /\ c <> m /\ is_Some (dom w !! c).



(** The outcome [r] of a timer's callback completed, and left the modal [m]
    and its image container [c] at their full size: every scale factor is 1. *)
Definition full_size (r : completion unit * world) (m c : Node) : Prop :=
  r.1 = Normal tt
  /\ exists mel' cel' : element,
       dom r.2 !! m = Some mel' /\ dom r.2 !! c = Some cel'
       /\ scale_x (transform (inline mel')) = Fin 1
       /\ scale_y (transform (inline mel')) = Fin 1
       /\ scale_x (transform (inline cel')) = Fin 1
       /\ scale_y (transform (inline cel')) = Fin 1.

(** The outcome [r] of an effect run in [w] completed, and added one timer,
    at timeout [t], which brings the modal to its full size whenever it
    fires on a page that still holds the elements. *)
Definition expands_at (r : completion unit * world) (w : world) (t : number)
    (m c p : Node) : Prop :=
  r.1 = Normal tt
  /\ exists cb : callback,
       timers r.2 = timers w ++ [(t, cb)]
       /\ forall w2 : world,
            parentRef w2 = Some p -> ready w2 m c p ->
            full_size (run_callback cb w2) m c.

(** The render completes when the active card, if there is one, is an
    element of the page. *)
Definition renders_ok (w : world) : Prop :=
  match activeCard w with
  | Some c => is_Some (dom w !! c)
  | None => True
  end.

(** [activeCard && Number(activeCard.dataset.index)] in the world [w]. *)
Definition activeCardIndex_in (w : world) : option prop :=
  match activeCard w with
  | None => Some PNull
  | Some c => (fun e => PNum (Number (dataset_get "index" e))) <$> dom w !! c
  end.

(** The outcome [r] of a render is a tree whose elements of class
    gallery__card-container are one per image, in the order of the images;
    the card in the [i]-th carries the index [i] and the base name of the
    [i]-th image. *)
Definition grid_of (images : list edge) (r : completion vnode * world) : Prop :=
  exists tree : vnode,
    r.1 = Normal tree
    /\ length (select (vnode_has_class "gallery__card-container") tree)
       = length images
    /\ forall (i : nat) (image : edge),
         images !! i = Some image ->
         exists container card : vnode,
           select (vnode_has_class "gallery__card-container") tree !! i
           = Some container
           /\ children_of container = [card]
           /\ vnode_has_class "gallery__card" card = true
           /\ prop_get "data-index" (props_of card) = Some (PNum (num_of_nat i))
           /\ prop_get "data-node-base" (props_of card)
              = Some (PStr (base (node image))).

(** The computation [m] leaves the refs of the cards and the [data-*]
    attributes of every element as they are, however it ends. *)
Definition keeps_cards {A} (m : M A) : Prop :=
  forall w : world,
    cardRefs (m w).2 = cardRefs w
    /\ forall n : Node, dataset <$> dom (m w).2 !! n = dataset <$> dom w !! n.

(** React attached the element [n] of the card at [i] to [cardRefs[i]] and
    wrote its [data-index={index}] as the attribute text [String(i)]. *)
Definition card_mounted (w : world) (i : nat) (n : Node) : Prop :=
  cardRefs w !! i = Some (Some n)
  /\ exists e : element,
       dom w !! n = Some e /\ dataset e !! "index" = Some (String_of_index i).

(** The outcome [r] of a render is a tree with one GalleryModal, which
    receives [v] as its [activeCardIndex]. *)
Definition passes_index (r : completion vnode * world) (v : prop) : Prop :=
  exists (tree : vnode) (props : list (string * prop)),
    r.1 = Normal tree
    /\ select (has_tag "GalleryModal") tree = [Element "GalleryModal" props []]
    /\ prop_get "activeCardIndex" props = Some v.



(** ** A page with two cards and two images *)

Definition demo_element (left top width height : Z) (classes : list string)
    (data : gmap string string) (children : list Node) : element :=
  mkElement left top width height (Fin 0) classes empty_style data children.

Definition demo_body : element := demo_element 0 0 1280 2000 [] ∅ [1%nat].
Definition demo_cards : element :=
  demo_element 0 200 1280 1800 ["gallery__cards"] ∅ [2%nat; 4%nat; 5%nat].
Definition demo_modal : element := demo_element 0 0 931 621 ["gallery__modal"] ∅ [3%nat].
Definition demo_container : element := demo_element 0 0 931 621 [] ∅ [].
Definition demo_card0 : element :=
  demo_element 100 300 275 275 ["gallery__card"; "observable"]
    (<["index" := "0"]> (<["nodeBase" := "a.jpg"]> ∅)) [].
Definition demo_card1 : element :=
  demo_element 400 300 275 275 ["gallery__card"; "observable"]
    (<["index" := "1"]> (<["nodeBase" := "b.jpg"]> ∅)) [].

(** The body (0), the cards' container (1), the modal (2) and its image
    container (3), and two cards (4 and 5). *)
Definition demo_dom : gmap nat element :=
  list_to_map
    [(0%nat, demo_body); (1%nat, demo_cards); (2%nat, demo_modal);
     (3%nat, demo_container); (4%nat, demo_card0); (5%nat, demo_card1)].

Definition demo_world (active : option Node) : world :=
  mkWorld demo_dom [0; 1; 2; 3; 4; 5]%nat 0%nat (Fin 0) [] active
    [Some 4%nat; Some 5%nat] (Some 2%nat) (Some 1%nat).

Definition demo_image (name : string) : edge :=
  mkEdge (mkFileNode name (mkImageSharp (mkSharp name "") (mkSharp name ""))).

Definition demo_data : pageData :=
  mkData (mkRemark "<p>Photographs</p>" (mkFrontmatter "Gallery"))
    (mkFiles [demo_image "a.jpg"; demo_image "b.jpg"]).

(** The page of the demo after the modal effect of galleries.js ran and its
    timer fired. *)
Definition demo_world_later : world :=
  let w := (Galleries.modalEffect Galleries.cardSize Galleries.delay
              Galleries.modalHeight Galleries.modalWidth
              (demo_world (Some 4%nat))).2 in
  (run_callbacks (timers w) (set_timers [] w)).2.

(** * The page as it runs *)

Inductive version : Type :=
  | GalleriesJs
  | Part000Js.

(** The world after a timer's callback ran, however it ended: an exception
    in a callback keeps the updates it made before. *)
Definition fire (cb : callback) (w : world) : world := (run_callback cb w).2.

(** The timers of [l] fire one after the other. *)
Definition fire_list (l : list (number * callback)) (w : world) : world :=
  foldl (fun w' timer => fire timer.2 w') w l.

(** The timer at [i] of the queue leaves the queue and fires. *)
Definition fire_timer (i : nat) (w : world) : world :=
  match timers w !! i with
  | Some (_, cb) => fire cb (set_timers (delete i (timers w)) w)
  | None => w
  end.

(** What happens on the page, in either version: the reveal and the observer
    callback as the first effect runs them ([delay] is the constant in
    galleries.js and undefined in part_000), the modal effect, a timer that
    fires, and the two event handlers of a card. *)
Inductive event : Type :=
  | CardsReveal (v : version)
  | ObserverCall (v : version) (entries : list IntersectionObserverEntry)
  | ModalEffect (v : version)
  | TimerFires (i : nat)
  | UserEvent (h : handler).

Definition step (ev : event) (w : world) : world :=
  match ev with
  | CardsReveal GalleriesJs => (Galleries.displayGalleryCards Galleries.delay w).2
  | CardsReveal Part000Js => (Part000.displayGalleryCards VUndefined w).2
  | ObserverCall GalleriesJs entries =>
      (Galleries.observerCallback Galleries.delay entries w).2
  | ObserverCall Part000Js entries =>
      (Part000.setObserverCallback VUndefined entries w).2
  | ModalEffect GalleriesJs =>
      (Galleries.modalEffect Galleries.cardSize Galleries.delay
         Galleries.modalHeight Galleries.modalWidth w).2
  | ModalEffect Part000Js => (Part000.modalEffect w).2
  | TimerFires i => fire_timer i w
  | UserEvent h => (handle h w).2
  end.

Definition run_events (evs : list event) (w : world) : world :=
  foldl (fun w' ev => step ev w') w evs.

(** The computation [m] takes every world to one related to it by [R],
    however it ends. *)
Definition preserves (R : world -> world -> Prop) {A} (m : M A) : Prop :=
  forall w : world, R w (m w).2.

(** What the layout and React decide about an element. *)
Definition geometry (e : element)
  : Z * Z * Z * Z * number * gmap string string * list Node :=
  (offsetLeft e, offsetTop e, offsetWidth e, offsetHeight e, rectTop e,
   dataset e, childNodes e).

(** [w'] has the elements of [w], each with the geometry, the [data-*]
    attributes and the children it had, and the same refs, body, tree order
    and scroll position. *)
Definition same_structure (w w' : world) : Prop :=
  document_order w' = document_order w
  /\ body w' = body w
  /\ scrollY w' = scrollY w
  /\ cardRefs w' = cardRefs w
  /\ modalRef w' = modalRef w
  /\ parentRef w' = parentRef w
  /\ forall n : Node, geometry <$> dom w' !! n = geometry <$> dom w !! n.

(** The three classes the code adds. *)
Definition animation_classes : list string :=
  ["is-visible"; "has-entered"; "is-active"].

(** Every element that has the class [c] in [w] is in [w'] and has it. *)
Definition keeps_class (c : string) (w w' : world) : Prop :=
  forall (n : Node) (e : element),
    dom w !! n = Some e -> c ∈ classList e ->
    exists e', dom w' !! n = Some e' /\ c ∈ classList e'.

(** The timers the code sets: those that add a class add is-visible or
    has-entered. *)
Definition timer_of_code (cb : callback) : Prop :=
  match cb with
  | AddClass _ c => c = "is-visible" \/ c = "has-entered"
  | _ => True
  end.

Definition code_timers (w : world) : Prop :=
  Forall (fun timer => timer_of_code timer.2) (timers w).

(** When the queue of [w] holds timers of the code only, so does that of
    [w'], and every class an element has in [w'] it had in [w], unless it is
    one of the three the code adds. *)
Definition adds_animation_only (w w' : world) : Prop :=
  code_timers w ->
  code_timers w'
  /\ forall (n : Node) (c : string) (e' : element),
       c ∉ animation_classes ->
       dom w' !! n = Some e' -> c ∈ classList e' ->
       exists e, dom w !! n = Some e /\ c ∈ classList e.

(** The elements have the same classes in [w'] as in [w]. *)
Definition same_classLists (w w' : world) : Prop :=
  forall n : Node, classList <$> dom w' !! n = classList <$> dom w !! n.

(** The page of the demo once its two cards were revealed. *)
Definition demo_revealed : world :=
  fire_list (timers (step (CardsReveal GalleriesJs) (demo_world None)))
    (set_timers [] (step (CardsReveal GalleriesJs) (demo_world None))).


(** * Properties *)

(** ** Stepping through computations *)

Lemma set_timers_same (w : world) : set_timers (timers w) w = w.
Proof. by destruct w. Qed.

Lemma set_timers_twice l1 l2 (w : world) :
  set_timers l2 (set_timers l1 w) = set_timers l2 w.
Proof. done. Qed.

(** A loop that only sets timers adds one timer per element, in order. *)
Lemma forEach_from_setTimeout {A} (cb : A -> nat -> callback)
    (t : A -> nat -> number) (l : list A) (k : nat) (w : world) :
  forEach_from (fun x i => setTimeout (cb x i) (t x i)) l k w
  = (Normal tt,
     set_timers (timers w ++ imap (fun i x => (t x (k + i)%nat, cb x (k + i)%nat)) l) w).
Proof.
  revert k w. induction l as [|x l IH]; intros k w; simpl.
  - rewrite app_nil_r, set_timers_same. done.
  - unfold bind, setTimeout at 1. rewrite IH. f_equal.
    unfold set_timers; simpl. f_equal.
    rewrite <- app_assoc. simpl. rewrite Nat.add_0_r.
    do 2 f_equal. apply imap_ext. intros i y _. simpl.
    by rewrite Nat.add_succ_r.
Qed.

(** A loop that sets a timer for the elements that pass a test adds one
    timer per such element, in order. *)
Lemma forEach_from_when {A} (p : A -> bool) (cb : A -> callback) (t : number)
    (l : list A) (k : nat) (w : world) :
  forEach_from (fun x _ => if p x then setTimeout (cb x) t else ret tt) l k w
  = (Normal tt,
     set_timers (timers w ++ List.map (fun x => (t, cb x)) (List.filter p l)) w).
Proof.
  revert k w. induction l as [|x l IH]; intros k w; simpl.
  - rewrite app_nil_r, set_timers_same. done.
  - unfold bind. destruct (p x); simpl.
    + unfold setTimeout at 1. rewrite IH. f_equal.
      unfold set_timers; simpl. by rewrite <- app_assoc.
    + unfold ret at 1. by rewrite IH.
Qed.

(** ** Staggered reveal *)

Lemma Galleries_displayGalleryCards_run (delay : number) (w : world) :
  Galleries.displayGalleryCards delay w
  = (Normal tt, set_timers (timers w ++ reveal_timers delay (gallery_cards w)) w).
Proof.
  unfold Galleries.displayGalleryCards, bind, querySelectorAll, read, forEach.
  rewrite (forEach_from_setTimeout
             (fun card _ => AddClass card "is-visible")
             (fun _ index => reveal_timeout delay index)).
  done.
Qed.

Lemma Part000_displayGalleryCards_run (delay : value) (w : world) :
  Part000.displayGalleryCards delay w
  = (Normal tt,
     set_timers (timers w ++ reveal_timers (ToNumber delay) (gallery_cards w)) w).
Proof.
  unfold Part000.displayGalleryCards, bind, querySelectorAll, read, forEach.
  rewrite (forEach_from_setTimeout
             (fun card _ => AddClass card "is-visible")
             (fun _ index => reveal_timeout (ToNumber delay) index)).
  done.
Qed.

Lemma reveal_timers_lookup (delay : number) (cards : list Node) (i : nat) :
  reveal_timers delay cards !! i
  = (fun card => (reveal_timeout delay i, AddClass card "is-visible")) <$> cards !! i.
Proof. unfold reveal_timers. by rewrite list_lookup_imap. Qed.

(** With a positive delay the timeouts grow strictly with the index. *)
Lemma reveal_timeout_increasing (d : Q) (i j : nat) :
  (0 < d)%Q -> (i < j)%nat ->
  (reveal_timeout (Fin d) i <? reveal_timeout (Fin d) j)%num = true.
Proof.
  intros Hd Hij. unfold reveal_timeout, lit, num_of_nat, num_of_Z. simpl num_mul.
  set (b := (inject_Z 3666 / inject_Z (10 ^ Z.of_nat 3))%Q).
  assert (Hb : (0 < b)%Q) by (subst b; reflexivity).
  unfold num_div.
  destruct (Qeq_bool b 0) eqn:E.
  { apply Qeq_bool_eq in E. rewrite E in Hb. by apply Qlt_irrefl in Hb. }
  unfold num_ltb.
  assert (H : (inject_Z (Z.of_nat i) * d / b < inject_Z (Z.of_nat j) * d / b)%Q).
  { unfold Qdiv. apply Qmult_lt_compat_r; [by apply Qinv_lt_0_compat|].
    apply Qmult_lt_compat_r; [done|].
    rewrite <- Zlt_Qlt. lia. }
  by rewrite (proj1 (Qlt_alt _ _) H).
Qed.

(** The reveal of galleries.js, where [delay] is the constant 300: one timer
    per card, at timeouts that grow strictly with the index. *)
Lemma Galleries_reveal_staggered (w : world) :
  Galleries.displayGalleryCards Galleries.delay w
  = (Normal tt,
     set_timers (timers w ++ reveal_timers Galleries.delay (gallery_cards w)) w)
  /\ forall i j ti tj ci cj,
       reveal_timers Galleries.delay (gallery_cards w) !! i = Some (ti, ci) ->
       reveal_timers Galleries.delay (gallery_cards w) !! j = Some (tj, cj) ->
       (i < j)%nat ->
       (ti <? tj)%num = true.
Proof.
  split; [apply Galleries_displayGalleryCards_run|].
  intros i j ti tj ci cj Hi Hj Hij.
  rewrite reveal_timers_lookup in Hi, Hj.
  destruct (gallery_cards w !! i); [|done].
  destruct (gallery_cards w !! j); [|done].
  simpl in Hi, Hj. injection Hi as <- _. injection Hj as <- _.
  by apply reveal_timeout_increasing.
Qed.

(** [displayGalleryCards] of part_000 does the same when it is given a
    positive delay. *)
Lemma Part000_reveal_staggered_given_a_delay (d : Q) (w : world) :
  (0 < d)%Q ->
  Part000.displayGalleryCards (VNum (Fin d)) w
  = (Normal tt,
     set_timers (timers w ++ reveal_timers (Fin d) (gallery_cards w)) w)
  /\ forall i j ti tj ci cj,
       reveal_timers (Fin d) (gallery_cards w) !! i = Some (ti, ci) ->
       reveal_timers (Fin d) (gallery_cards w) !! j = Some (tj, cj) ->
       (i < j)%nat ->
       (ti <? tj)%num = true.
Proof.
  intros Hd. split; [apply Part000_displayGalleryCards_run|].
  intros i j ti tj ci cj Hi Hj Hij.
  rewrite reveal_timers_lookup in Hi, Hj.
  destruct (gallery_cards w !! i); [|done].
  destruct (gallery_cards w !! j); [|done].
  simpl in Hi, Hj. injection Hi as <- _. injection Hj as <- _.
  by apply reveal_timeout_increasing.
Qed.

Example reveal_timeouts_of_galleries :
  List.map fst (reveal_timers Galleries.delay [4; 5; 6]%nat)
  = [reveal_timeout Galleries.delay 0; reveal_timeout Galleries.delay 1;
     reveal_timeout Galleries.delay 2]
  /\ (reveal_timeout Galleries.delay 0 === Fin 0)%num = true
  /\ (reveal_timeout Galleries.delay 1 === Fin (50000 # 611))%num = true
  /\ (reveal_timeout Galleries.delay 2 === Fin (100000 # 611))%num = true.
Proof. repeat split. Qed.

Example reveal_timeouts_of_part_000 :
  (invoke_effect Part000.displayGalleryCards (demo_world None)).2
  = set_timers [(NaN, AddClass 4 "is-visible"); (NaN, AddClass 5 "is-visible")]
      (demo_world None).
Proof. reflexivity. Qed.

(** C4. The reveal as part_000 runs it.  [useEffect(animateCards)] makes
    React call [animateCards] with no argument, so its [delay] is undefined:
    the timeout of every card is NaN, and for no two cards is the timeout of
    the first smaller than that of the second.  The timeouts are not
    staggered there, contrary to the comment of [displayGalleryCards] and to
    galleries.js ([Galleries_reveal_staggered]); the function itself staggers
    them when it is given a delay
    ([Part000_reveal_staggered_given_a_delay]). *)
Theorem Part000_reveal_timeouts_are_NaN
    (lazyLoad : (list IntersectionObserverEntry -> M unit) -> M unit)
    (moveElementsRelativeToMouse : string -> string -> M unit) (w : world) :
  Part000.cardsEffect lazyLoad moveElementsRelativeToMouse w
  = (lazyLoad (Part000.setObserverCallback VUndefined) ;;
     moveElementsRelativeToMouse "scale(1.025)" ".gallery__card-container")
      (set_timers (timers w ++ reveal_timers NaN (gallery_cards w)) w)
  /\ (forall i t c,
        reveal_timers NaN (gallery_cards w) !! i = Some (t, c) -> t = NaN)
  /\ (forall i j ti tj ci cj,
        reveal_timers NaN (gallery_cards w) !! i = Some (ti, ci) ->
        reveal_timers NaN (gallery_cards w) !! j = Some (tj, cj) ->
        (ti <? tj)%num = false).
Proof.
  assert (HNaN : forall i t c,
             reveal_timers NaN (gallery_cards w) !! i = Some (t, c) -> t = NaN).
  { intros i t c H. rewrite reveal_timers_lookup in H.
    destruct (gallery_cards w !! i); [|done].
    simpl in H. by injection H as <- _. }
  split; [|split; [exact HNaN|]].
  - unfold Part000.cardsEffect, invoke_effect, Part000.animateCards.
    unfold bind at 1. by rewrite Part000_displayGalleryCards_run.
  - intros i j ti tj ci cj Hi Hj.
    by rewrite (HNaN _ _ _ Hi), (HNaN _ _ _ Hj).
Qed.

(** ** Lazy loading *)

Lemma Galleries_observerCallback_run (delay : number)
    (entries : list IntersectionObserverEntry) (w : world) :
  Galleries.observerCallback delay entries w
  = (Normal tt,
     set_timers (timers w ++ entry_timers (delay / num_of_Z 3)%num entries) w).
Proof.
  unfold Galleries.observerCallback, forEach.
  apply (forEach_from_when isIntersecting
           (fun entry => AddClass (target entry) "has-entered")).
Qed.

Lemma Part000_setObserverCallback_run (delay : value)
    (entries : list IntersectionObserverEntry) (w : world) :
  Part000.setObserverCallback delay entries w
  = (Normal tt,
     set_timers
       (timers w ++ entry_timers (ToNumber delay / num_of_Z 3)%num entries) w).
Proof.
  unfold Part000.setObserverCallback, forEach.
  apply (forEach_from_when isIntersecting
           (fun entry => AddClass (target entry) "has-entered")).
Qed.

(** Which elements have a timer among those of a list of entries. *)
Lemma entry_timers_elem (t : number) (entries : list IntersectionObserverEntry)
    (n : Node) :
  (t, AddClass n "has-entered") ∈ entry_timers t entries
  <-> exists entry, entry ∈ entries /\ isIntersecting entry = true /\ target entry = n.
Proof.
  unfold entry_timers. rewrite list_elem_of_In, in_map_iff. split.
  - intros (entry & Heq & Hin). apply filter_In in Hin as [Hin Hint].
    exists entry. rewrite list_elem_of_In. by injection Heq as ->.
  - intros (entry & Hin & Hint & <-). exists entry. split; [done|].
    apply filter_In. by rewrite <- list_elem_of_In.
Qed.



(** ** The modal *)

Lemma bind_run {A B} (m : M A) (k : A -> M B) (w w' : world) (a : A) :
  m w = (Normal a, w') -> bind m k w = k a w'.
Proof. unfold bind. by intros ->. Qed.

Lemma getElement_run (n : Node) (e : element) (w : world) :
  dom w !! n = Some e -> getElement n w = (Normal e, w).
Proof. unfold getElement. by intros ->. Qed.

Lemma modifyElement_run (n : Node) (f : element -> element) (e : element)
    (w : world) :
  dom w !! n = Some e ->
  modifyElement n f w = (Normal tt, set_dom (<[n := f e]> (dom w)) w).
Proof.
  intros H. unfold modifyElement.
  by rewrite (bind_run _ _ _ _ _ (getElement_run _ _ _ H)).
Qed.

Lemma read_deref_run {A} (f : world -> option A) (a : A) (w : world) :
  f w = Some a -> (r <- read f ;; deref r) w = (Normal a, w).
Proof. unfold bind, read. by intros ->. Qed.

Lemma bind_ret {A B} (a : A) (k : A -> M B) (w : world) :
  bind (ret a) k w = k a w.
Proof. done. Qed.

Lemma read_run {A} (f : world -> A) (w : world) : read f w = (Normal (f w), w).
Proof. done. Qed.

(** Looks an element up in a store built by updates. *)
Ltac lookup_dom :=
  simpl;
  repeat first [rewrite lookup_insert_eq | rewrite lookup_insert_ne by done];
  first [reflexivity | eassumption].

(** One statement of a computation. *)
Ltac step :=
  erewrite bind_run;
  [| first [ apply getElement_run; lookup_dom
           | apply modifyElement_run; lookup_dom
           | apply read_deref_run; simpl; eassumption
           | apply read_run ] ].

Lemma Galleries_modalEffect_run (cardSize delay modalHeight modalWidth : number)
    (w : world) (t m c : Node) (tel mel cel : element) (rest : list Node) :
  activeCard w = Some t ->
  dom w !! t = Some tel ->
  modalRef w = Some m ->
  dom w !! m = Some mel ->
  childNodes mel = c :: rest ->
  c <> m ->
  dom w !! c = Some cel ->
  exists (w' : world) (mel' cel' : element),
    Galleries.modalEffect cardSize delay modalHeight modalWidth w = (Normal tt, w')
    /\ dom w' !! m = Some mel'
    /\ transform (inline mel')
       = [Translate (Galleries.activeCardX modalWidth tel)
            (Galleries.activeCardY modalHeight tel);
          ScaleX (cardSize / modalWidth)%num;
          ScaleY (cardSize / modalHeight)%num]
    /\ dom w' !! c = Some cel'
    /\ transform (inline cel')
       = [ScaleX (modalWidth / cardSize)%num; ScaleY (modalHeight / cardSize)%num]
    /\ timers w'
       = timers w ++ [((delay * num_of_Z 2)%num,
                       GalleriesExpand modalHeight modalWidth m c)].
Proof.
  intros Ht Htel Hm Hmel Hch Hcm Hcel.
  unfold Galleries.modalEffect.
  step. rewrite Ht.
  assert (Hcases : (t = m /\ tel = mel) \/ (t <> m /\ c = t /\ cel = tel)
                   \/ (t <> m /\ c <> t)).
  { destruct (decide (t = m)) as [->|]; [left; split; congruence|right].
    destruct (decide (c = t)) as [->|]; [left; repeat split; congruence|by right]. }
  destruct Hcases as [[-> ->]|[(Htm & -> & ->)|[Htm Hct]]].
  all: do 6 step; cbn [childNodes clear_style classList_remove set_inline set_classList].
  all: rewrite Hch; cbn [head deref]; rewrite bind_ret.
  all: step; unfold setTimeout.
  all: do 3 eexists; split; [reflexivity|].
  all: simpl; repeat split; lookup_dom.
Qed.

Lemma Part000_animateModal_run (delay : value) (modalParent : option Node)
    (w : world) (t m c : Node) (tel mel cel : element) (rest : list Node) :
  dom w !! t = Some tel ->
  dom w !! m = Some mel ->
  childNodes mel = c :: rest ->
  c <> m ->
  dom w !! c = Some cel ->
  exists (w' : world) (mel' cel' : element),
    Part000.animateModal delay (Some m) modalParent (Some t) w = (Normal tt, w')
    /\ dom w' !! m = Some mel'
    /\ transform (inline mel')
       = [Translate (Part000.targetX mel tel) (Part000.targetY mel tel);
          ScaleX (num_of_Z (offsetWidth tel) / num_of_Z (offsetWidth mel))%num;
          ScaleY (num_of_Z (offsetHeight tel) / num_of_Z (offsetHeight mel))%num]
    /\ dom w' !! c = Some cel'
    /\ transform (inline cel')
       = [ScaleX (num_of_Z (offsetWidth mel) / num_of_Z (offsetWidth tel))%num;
          ScaleY (num_of_Z (offsetHeight mel) / num_of_Z (offsetHeight tel))%num]
    /\ timers w'
       = timers w ++ [((ToNumber delay * num_of_Z 2)%num, Part000Expand m c modalParent)].
Proof.
  intros Htel Hmel Hch Hcm Hcel.
  unfold Part000.animateModal. cbn [deref]. rewrite bind_ret.
  assert (Hcases : (t = m /\ tel = mel) \/ (t <> m /\ c = t /\ cel = tel)
                   \/ (t <> m /\ c <> t)).
  { destruct (decide (t = m)) as [->|]; [left; split; congruence|right].
    destruct (decide (c = t)) as [->|]; [left; repeat split; congruence|by right]. }
  destruct Hcases as [[-> ->]|[(Htm & -> & ->)|[Htm Hct]]].
  all: do 4 step.
  all: rewrite Hch; cbn [head deref]; rewrite bind_ret.
  all: step; unfold setTimeout.
  all: do 3 eexists; split; [reflexivity|].
  all: simpl; repeat split; lookup_dom.
Qed.

Lemma Galleries_expandModal_run (modalHeight modalWidth : number) (w : world)
    (m c p : Node) (bel mel cel pel : element) :
  c <> m -> parentRef w = Some p ->
  dom w !! body w = Some bel -> dom w !! m = Some mel ->
  dom w !! c = Some cel -> dom w !! p = Some pel ->
  exists (w' : world) (mel' cel' : element),
    Galleries.expandModal modalHeight modalWidth m c w = (Normal tt, w')
    /\ dom w' !! m = Some mel'
    /\ transform (inline mel')
       = [Translate (Galleries.centerX modalWidth bel + lit 5 1)%num
            (Galleries.centerY modalHeight bel pel (scrollY w));
          ScaleX (num_of_Z 1); ScaleY (num_of_Z 1)]
    /\ "is-active" ∈ classList mel'
    /\ dom w' !! c = Some cel'
    /\ transform (inline cel') = [ScaleX (num_of_Z 1); ScaleY (num_of_Z 1)].
Proof.
  intros Hcm Hp Hb Hm Hc Hpel.
  unfold Galleries.expandModal.
  do 7 step.
  do 3 eexists. split; [erewrite modifyElement_run; [reflexivity|lookup_dom]|].
  simpl. split; [lookup_dom|]. split; [done|].
  split; [|split; [lookup_dom|done]].
  unfold classList_add, has_class. case_bool_decide; [done|].
  simpl. apply elem_of_app. right. by apply list_elem_of_singleton.
Qed.

Lemma Part000_expandModal_run (w : world) (m c p : Node)
    (bel mel cel pel : element) :
  c <> m ->
  dom w !! body w = Some bel -> dom w !! m = Some mel ->
  dom w !! c = Some cel -> dom w !! p = Some pel ->
  exists (w' : world) (mel' cel' : element),
    Part000.expandModal m c (Some p) w = (Normal tt, w')
    /\ dom w' !! m = Some mel'
    /\ transform (inline mel')
       = [Translate (Part000.centerX bel mel + lit 5 1)%num
            (Part000.centerY bel mel pel (scrollY w));
          Scale (num_of_Z 1)]
    /\ dom w' !! c = Some cel'
    /\ transform (inline cel') = [Scale (num_of_Z 1)].
Proof.
  intros Hcm Hb Hm Hc Hpel.
  unfold Part000.expandModal.
  do 3 step. cbn [deref]. rewrite bind_ret.
  do 3 step.
  do 3 eexists. split; [erewrite modifyElement_run; [reflexivity|lookup_dom]|].
  simpl. split; [lookup_dom|]. split; [done|].
  split; [lookup_dom|done].
Qed.

(** The click on the first card of the demo page, in galleries.js: the
    modal goes over the card, scaled down to its size, and the timer then
    centres it at its full size. *)
Example modal_effect_on_the_demo_page :
  match dom (Galleries.modalEffect Galleries.cardSize Galleries.delay
               Galleries.modalHeight Galleries.modalWidth
               (demo_world (Some 4%nat))).2 !! 2%nat with
  | Some e =>
      match transform (inline e) with
      | [Translate x y; ScaleX sx; ScaleY sy] =>
          (x === Fin (-228))%num && (y === lit 127167 3)%num
          && (sx === Fin (275 # 931))%num && (sy === Fin (275000 # 620666))%num
      | _ => false
      end
  | None => false
  end = true
  /\ match dom demo_world_later !! 2%nat with
     | Some e =>
         match transform (inline e) with
         | [Translate x y; ScaleX sx; ScaleY sy] =>
             (x === Fin 175)%num && (y === lit 689667 3)%num
             && (sx === Fin 1)%num && (sy === Fin 1)%num
             && bool_decide ("is-active" ∈ classList e)
         | _ => false
         end
     | None => false
     end = true
  /\ timers (Galleries.modalEffect Galleries.cardSize Galleries.delay
               Galleries.modalHeight Galleries.modalWidth
               (demo_world (Some 4%nat))).2
     = [(num_of_Z 600,
         GalleriesExpand Galleries.modalHeight Galleries.modalWidth 2 3)].
Proof. repeat split; vm_compute; reflexivity. Qed.

(** *** No active card *)

(** C9. Without an active card the modal effect returns at once: in both
    versions it completes and leaves the whole world as it was, so the
    modal's transform, its container's transform and its class list are
    unchanged and no timer is set. *)
Theorem modal_effect_without_active_card (w : world) :
  activeCard w = None ->
  (forall cardSize delay modalHeight modalWidth : number,
     Galleries.modalEffect cardSize delay modalHeight modalWidth w = (Normal tt, w))
  /\ Part000.modalEffect w = (Normal tt, w)
  /\ (forall (delay : value) (modal modalParent : option Node),
        Part000.animateModal delay modal modalParent None w = (Normal tt, w)).
Proof.
  intros H. repeat split.
  - intros. unfold Galleries.modalEffect, bind, read. by rewrite H.
  - unfold Part000.modalEffect, invoke_effect, bind, read. by rewrite H.
Qed.

Lemma modal_effect_without_active_card_witness :
  (forall cardSize delay modalHeight modalWidth : number,
     Galleries.modalEffect cardSize delay modalHeight modalWidth (demo_world None)
     = (Normal tt, demo_world None))
  /\ Part000.modalEffect (demo_world None) = (Normal tt, demo_world None)
  /\ (forall (delay : value) (modal modalParent : option Node),
        Part000.animateModal delay modal modalParent None (demo_world None)
        = (Normal tt, demo_world None)).
Proof. apply (modal_effect_without_active_card (demo_world None)). reflexivity. Defined.

(** *** Arithmetic on finite numbers *)

Lemma num_div_Fin (a b : Q) :
  Qeq_bool b 0 = false -> (Fin a / Fin b)%num = Fin (a / b).
Proof. unfold num_div. by intros ->. Qed.

Lemma Qeq_bool_pos (b : Q) : (0 < b)%Q -> Qeq_bool b 0 = false.
Proof.
  intros Hb. destruct (Qeq_bool b 0) eqn:E; [|done].
  apply Qeq_bool_eq in E. rewrite E in Hb. by apply Qlt_irrefl in Hb.
Qed.


Lemma num_eqb_Fin (a b : Q) : (a == b)%Q -> (Fin a === Fin b)%num = true.
Proof. apply Qeq_eq_bool. Qed.


(** A quotient and its inverse multiply to one. *)
Lemma inverse_quotients (a b : Q) :
  (0 < a)%Q -> (0 < b)%Q ->
  ((Fin a / Fin b) * (Fin b / Fin a) === Fin 1)%num = true.
Proof.
  intros Ha Hb. rewrite !num_div_Fin by by apply Qeq_bool_pos.
  apply num_eqb_Fin. field. split; intros E; rewrite E in *; by eapply Qlt_irrefl.
Qed.


(** *** A clicked card *)

Lemma Part000_modalEffect_unfold (w : world) :
  Part000.modalEffect w
  = Part000.animateModal (VNum Part000.delay) (modalRef w) (parentRef w)
      (activeCard w) w.
Proof. done. Qed.

Lemma head_cons {A} (l : list A) (x : A) :
  head l = Some x -> exists rest, l = x :: rest.
Proof. destruct l; [done|]. intros [= ->]. by eexists. Qed.





Lemma Galleries_modalEffect_expands
    (w : world) (t m c p : Node) (tel mel : element) :
  card_clicked w t m c tel mel ->
  expands_at
    (Galleries.modalEffect Galleries.cardSize Galleries.delay
       Galleries.modalHeight Galleries.modalWidth w)
    w (Galleries.delay * num_of_Z 2)%num m c p.
Proof.
  intros (Ht & Htel & Hm & Hmel & Hc & Hcm & [cel Hcel]).
  apply head_cons in Hc as [rest Hch].
  destruct (Galleries_modalEffect_run Galleries.cardSize Galleries.delay
              Galleries.modalHeight Galleries.modalWidth
              w t m c tel mel cel rest)
    as (w' & mel' & cel' & Hrun & _ & _ & _ & _ & Htimers); try done.
  rewrite Hrun. split; [done|].
  eexists. split; [exact Htimers|].
  intros w2 Hp2 ([bel2 Hb2] & [mel2 Hm2] & [cel2 Hc2] & [pel2 Hpel2]).
  unfold run_callback.
  destruct (Galleries_expandModal_run Galleries.modalHeight
              Galleries.modalWidth w2 m c p bel2 mel2 cel2 pel2)
    as (w3 & mel3 & cel3 & Hrun3 & Hm3 & Htm3 & _ & Hc3 & Htc3);
    try done.
  rewrite Hrun3. split; [done|].
  exists mel3, cel3. by rewrite Htm3, Htc3.
Qed.

Lemma Part000_modalEffect_expands
    (w : world) (t m c p : Node) (tel mel : element) :
  card_clicked w t m c tel mel ->
  parentRef w = Some p ->
  expands_at (Part000.modalEffect w) w (Part000.delay * num_of_Z 2)%num m c p.
Proof.
  intros (Ht & Htel & Hm & Hmel & Hc & Hcm & [cel Hcel]) Hp.
  apply head_cons in Hc as [rest Hch].
  destruct (Part000_animateModal_run (VNum Part000.delay) (Some p)
              w t m c tel mel cel rest)
    as (w' & mel' & cel' & Hrun & _ & _ & _ & _ & Htimers); try done.
  rewrite Part000_modalEffect_unfold, Hm, Ht, Hp, Hrun. split; [done|].
  eexists. split; [exact Htimers|].
  intros w2 _ ([bel2 Hb2] & [mel2 Hm2] & [cel2 Hc2] & [pel2 Hpel2]).
  unfold run_callback.
  destruct (Part000_expandModal_run w2 m c p bel2 mel2 cel2 pel2)
    as (w3 & mel3 & cel3 & Hrun3 & Hm3 & Htm3 & Hc3 & Htc3);
    try done.
  rewrite Hrun3. split; [done|].
  exists mel3, cel3. by rewrite Htm3, Htc3.
Qed.

(** C3. The modal expands to its full size: when a card is clicked, the
    effect sets one timer at [delay * 2], which is 600 with the delay of 300
    of both versions, and the timer sets every scale factor of the modal and
    of its image container to 1. *)
Theorem modal_expands_after_twice_the_delay
    (w : world) (t m c p : Node) (tel mel : element) :
  card_clicked w t m c tel mel ->
  parentRef w = Some p ->
  expands_at
    (Galleries.modalEffect Galleries.cardSize Galleries.delay
       Galleries.modalHeight Galleries.modalWidth w)
    w (Galleries.delay * num_of_Z 2)%num m c p
  /\ expands_at (Part000.modalEffect w) w (Part000.delay * num_of_Z 2)%num m c p
  /\ (Galleries.delay * num_of_Z 2)%num = num_of_Z 600
  /\ (Part000.delay * num_of_Z 2)%num = num_of_Z 600.
Proof.
  intros Hclicked Hp.
  split; [by eapply Galleries_modalEffect_expands|].
  split; [by eapply Part000_modalEffect_expands|done].
Qed.

Lemma modal_expands_after_twice_the_delay_witness :
  expands_at
    (Galleries.modalEffect Galleries.cardSize Galleries.delay
       Galleries.modalHeight Galleries.modalWidth (demo_world (Some 4%nat)))
    (demo_world (Some 4%nat)) (Galleries.delay * num_of_Z 2)%num 2 3 1
  /\ expands_at (Part000.modalEffect (demo_world (Some 4%nat)))
       (demo_world (Some 4%nat)) (Part000.delay * num_of_Z 2)%num 2 3 1
  /\ (Galleries.delay * num_of_Z 2)%num = num_of_Z 600
  /\ (Part000.delay * num_of_Z 2)%num = num_of_Z 600.
Proof.
  apply (modal_expands_after_twice_the_delay (demo_world (Some 4%nat)) 4 2 3 1
           demo_card0 demo_modal).
  - repeat split; done.
  - reflexivity.
Defined.

(** ** The index of the active card *)

Lemma skip_spaces_digits (d : Decimal.uint) :
  skip_spaces (NilEmpty.string_of_uint d) = NilEmpty.string_of_uint d.
Proof. by destruct d. Qed.

Lemma drop_end_spaces_digits (d : Decimal.uint) :
  drop_end_spaces (NilEmpty.string_of_uint d) = NilEmpty.string_of_uint d.
Proof.
  induction d; [done|..];
    cbn [NilEmpty.string_of_uint drop_end_spaces all_spaces];
    (match goal with
     | |- context [is_space ?c] => change (is_space c) with false
     end);
    cbn [andb]; by rewrite IHd.
Qed.

Lemma read_digits_uint (d : Decimal.uint) (acc n : nat) :
  read_digits 10 (NilEmpty.string_of_uint d) acc n
  = (Nat.of_uint_acc d acc, (n + Decimal.nb_digits d)%nat, EmptyString).
Proof.
  revert acc n.
  induction d; intros acc n;
    cbn [NilEmpty.string_of_uint read_digits Nat.of_uint_acc Decimal.nb_digits].
  1: by rewrite Nat.add_0_r.
  all: match goal with
       | |- context [digit_of 10 ?c] =>
           let v := eval vm_compute in (digit_of 10 c) in
           change (digit_of 10 c) with v
       end.
  all: cbv iota beta; rewrite IHd, Nat.tail_mul_spec, Nat.add_succ_r.
  all: f_equal; f_equal; first [lia | f_equal; lia].
Qed.

Lemma StrNumericLiteral_digits (d : Decimal.uint) :
  d <> Decimal.Nil ->
  StrNumericLiteral (NilEmpty.string_of_uint d)
  = read_unsigned (NilEmpty.string_of_uint d).
Proof.
  intros Hd. destruct d as [|d|d|d|d|d|d|d|d|d|d]; try done.
  by destruct d.
Qed.

Lemma read_unsigned_digits (d : Decimal.uint) :
  d <> Decimal.Nil ->
  read_unsigned (NilEmpty.string_of_uint d) = Fin (scale10 (Nat.of_uint d) 0).
Proof.
  intros Hd. unfold read_unsigned.
  assert (String.eqb (NilEmpty.string_of_uint d) "Infinity" = false) as ->
    by by destruct d.
  unfold read_unsigned_decimal. rewrite read_digits_uint.
  by destruct d.
Qed.

Example StringToNumber_examples :
  StringToNumber "" = Fin 0
  /\ StringToNumber "12" = Fin 12
  /\ StringToNumber " 12.5e1 " = Fin 125
  /\ StringToNumber "0x1f" = Fin 31
  /\ StringToNumber "-Infinity" = NegInf
  /\ StringToNumber "12px" = NaN
  /\ StringToNumber "1e" = NaN
  /\ StringToNumber "." = NaN
  /\ String_of_index 0 = "0"
  /\ String_of_index 17 = "17"
  /\ Number VUndefined = NaN.
Proof. repeat split. Qed.

(** [Number] gives back the index that [String] printed. *)
Lemma Number_String_of_index (i : nat) :
  (Number (VStr (String_of_index i)) === num_of_nat i)%num = true.
Proof.
  unfold Number, ToNumber, String_of_index, NilZero.string_of_uint.
  rewrite <- (DecimalNat.Unsigned.of_to i) at 2.
  destruct (Nat.to_uint i) eqn:E; [done|..].
  all: rewrite <- E; unfold StringToNumber, trim.
  all: rewrite skip_spaces_digits, drop_end_spaces_digits.
  all: rewrite StrNumericLiteral_digits, read_unsigned_digits by by rewrite E.
  all: apply num_eqb_Fin; unfold scale10; simpl Qpower; ring.
Qed.

(** ** The rendered tree *)

Lemma gallery_render_run (cardSize modalHeight modalWidth : number)
    (data : pageData) (w : world) :
  gallery_render cardSize modalHeight modalWidth data w
  = match activeCardIndex_in w with
    | Some index =>
        (Normal (gallery_view cardSize modalHeight modalWidth data index), w)
    | None => (TypeError, w)
    end.
Proof.
  unfold gallery_render, activeCardIndex_in, bind, read, getElement.
  destruct (activeCard w) as [c|]; [|done].
  by destruct (dom w !! c).
Qed.

Lemma renders_ok_index (w : world) :
  renders_ok w -> exists index, activeCardIndex_in w = Some index.
Proof.
  unfold renders_ok, activeCardIndex_in.
  destruct (activeCard w) as [c|]; [|by eauto].
  intros [e ->]. by eauto.
Qed.

Lemma flat_map_select_imap {A} (p : vnode -> bool) (f : nat -> A -> vnode)
    (l : list A) :
  (forall i x, select p (f i x) = [f i x]) ->
  List.flat_map (select p) (imap f l) = imap f l.
Proof.
  revert f. induction l as [|x l IH]; intros f Hf; [done|].
  cbn [imap List.flat_map]. rewrite Hf, IH; [done|].
  intros i y. apply Hf.
Qed.

Lemma select_containers (cardSize modalHeight modalWidth : number)
    (data : pageData) (index : prop) :
  select (vnode_has_class "gallery__card-container")
    (gallery_view cardSize modalHeight modalWidth data index)
  = imap gallery_card (edges (allFile data)).
Proof.
  unfold gallery_view. cbn [select List.flat_map].
  rewrite flat_map_select_imap by done.
  simpl. by rewrite app_nil_r.
Qed.

Lemma flat_map_select_imap_none {A} (p : vnode -> bool) (f : nat -> A -> vnode)
    (l : list A) :
  (forall i x, select p (f i x) = []) ->
  List.flat_map (select p) (imap f l) = [].
Proof.
  revert f. induction l as [|x l IH]; intros f Hf; [done|].
  cbn [imap List.flat_map]. rewrite Hf, IH; [done|].
  intros i y. apply Hf.
Qed.

Lemma select_modal (cardSize modalHeight modalWidth : number)
    (data : pageData) (index : prop) :
  exists props,
    select (has_tag "GalleryModal")
      (gallery_view cardSize modalHeight modalWidth data index)
    = [Element "GalleryModal" props []]
    /\ prop_get "activeCardIndex" props = Some index
    /\ prop_get "cardSize" props = Some (PNum cardSize)
    /\ prop_get "height" props = Some (PNum modalHeight)
    /\ prop_get "width" props = Some (PNum modalWidth).
Proof.
  eexists. split.
  - unfold gallery_view. cbn [select List.flat_map].
    rewrite flat_map_select_imap_none by done.
    reflexivity.
  - done.
Qed.

Lemma gallery_render_grid (cardSize modalHeight modalWidth : number)
    (data : pageData) (w : world) :
  renders_ok w ->
  grid_of (edges (allFile data))
    (gallery_render cardSize modalHeight modalWidth data w).
Proof.
  intros [index Hindex]%renders_ok_index.
  rewrite gallery_render_run, Hindex.
  eexists. split; [done|]. rewrite select_containers.
  split; [by rewrite length_imap|].
  intros i image Hi. rewrite list_lookup_imap, Hi.
  by eexists _, _.
Qed.

(** C6. The template renders one element of class gallery__card-container
    per image of [data.allFile.edges], in the order of the list, and the
    card of the [i]-th carries [data-index] equal to [i] and
    [data-node-base] equal to the base name of the [i]-th image. *)
Theorem grid_has_one_card_per_image
    (cardSize modalHeight modalWidth : number) (data : pageData) (w : world) :
  renders_ok w ->
  grid_of (edges (allFile data))
    (Galleries.render cardSize modalHeight modalWidth data w)
  /\ grid_of (edges (allFile data)) (Part000.render data w).
Proof. intros H. split; by apply gallery_render_grid. Qed.

Lemma grid_has_one_card_per_image_witness :
  grid_of [demo_image "a.jpg"; demo_image "b.jpg"]
    (Galleries.render Galleries.cardSize Galleries.modalHeight
       Galleries.modalWidth demo_data (demo_world None))
  /\ grid_of [demo_image "a.jpg"; demo_image "b.jpg"]
       (Part000.render demo_data (demo_world None)).
Proof.
  apply (grid_has_one_card_per_image Galleries.cardSize Galleries.modalHeight
           Galleries.modalWidth demo_data (demo_world None)).
  exact I.
Defined.

(** C7. The render keeps no state of its own: its tree is a function of the
    [data] prop and of the active card.  Two renders, in any two worlds that
    agree on the active card and on the [data-index] it carries, return the
    same tree, whatever else differs between the worlds (elements, classes,
    styles, timers, refs, scroll position), and a render changes nothing in
    the world. *)
Theorem render_depends_on_data_and_active_card
    (cardSize modalHeight modalWidth : number) (data : pageData)
    (w1 w2 : world) :
  activeCard w1 = activeCard w2 ->
  (forall c : Node,
     activeCard w1 = Some c ->
     dataset_get "index" <$> dom w1 !! c = dataset_get "index" <$> dom w2 !! c) ->
  (Galleries.render cardSize modalHeight modalWidth data w1).1
  = (Galleries.render cardSize modalHeight modalWidth data w2).1
  /\ (Part000.render data w1).1 = (Part000.render data w2).1
  /\ (Galleries.render cardSize modalHeight modalWidth data w1).2 = w1
  /\ (Part000.render data w1).2 = w1.
Proof.
  intros Hactive Hindex.
  assert (Hsame : activeCardIndex_in w1 = activeCardIndex_in w2).
  { unfold activeCardIndex_in. rewrite <- Hactive.
    destruct (activeCard w1) as [c|]; [|done].
    specialize (Hindex c eq_refl).
    destruct (dom w1 !! c), (dom w2 !! c); simpl in *; congruence. }
  unfold Galleries.render, Part000.render.
  rewrite !gallery_render_run, <- Hsame.
  by destruct (activeCardIndex_in w1).
Qed.

Lemma render_depends_on_data_and_active_card_witness :
  (Galleries.render Galleries.cardSize Galleries.modalHeight
     Galleries.modalWidth demo_data (demo_world (Some 4%nat))).1
  = (Galleries.render Galleries.cardSize Galleries.modalHeight
       Galleries.modalWidth demo_data demo_world_later).1
  /\ (Part000.render demo_data (demo_world (Some 4%nat))).1
     = (Part000.render demo_data demo_world_later).1
  /\ (Galleries.render Galleries.cardSize Galleries.modalHeight
        Galleries.modalWidth demo_data (demo_world (Some 4%nat))).2
     = demo_world (Some 4%nat)
  /\ (Part000.render demo_data (demo_world (Some 4%nat))).2
     = demo_world (Some 4%nat).
Proof.
  apply (render_depends_on_data_and_active_card Galleries.cardSize
           Galleries.modalHeight Galleries.modalWidth demo_data
           (demo_world (Some 4%nat)) demo_world_later).
  - reflexivity.
  - intros c [= <-]. vm_compute. reflexivity.
Defined.

(** ** What the code never touches *)

Lemma keeps_bind {A B} (m : M A) (k : A -> M B) :
  keeps_cards m -> (forall a, keeps_cards (k a)) -> keeps_cards (bind m k).
Proof.
  intros Hm Hk w. unfold bind. specialize (Hm w).
  destruct (m w) as [[a|] w']; [|done].
  destruct (Hk a w') as [Hrefs Hdata]. destruct Hm as [Hrefs' Hdata'].
  simpl in Hrefs', Hdata'.
  split; [congruence|]. intros n. by rewrite Hdata, Hdata'.
Qed.

Lemma keeps_pure {A} (r : world -> completion A) : keeps_cards (fun w => (r w, w)).
Proof. done. Qed.

Lemma keeps_ret {A} (a : A) : keeps_cards (ret a).
Proof. done. Qed.

Lemma keeps_read {A} (f : world -> A) : keeps_cards (read f).
Proof. done. Qed.

Lemma keeps_deref {A} (o : option A) : keeps_cards (deref o).
Proof. by destruct o. Qed.

Lemma keeps_getElement (n : Node) : keeps_cards (getElement n).
Proof. intros w. unfold getElement. by destruct (dom w !! n). Qed.

Lemma keeps_setTimeout (cb : callback) (t : number) : keeps_cards (setTimeout cb t).
Proof. done. Qed.

Lemma keeps_set_activeCard (c : option Node) :
  keeps_cards (fun w => (Normal tt, set_activeCard c w)).
Proof. done. Qed.

Lemma keeps_modifyElement (n : Node) (f : element -> element) :
  (forall e, dataset (f e) = dataset e) -> keeps_cards (modifyElement n f).
Proof.
  intros Hf w. unfold modifyElement, bind, getElement.
  destruct (dom w !! n) as [e|] eqn:He; [|done].
  split; [done|]. intros k. simpl.
  destruct (decide (n = k)) as [<-|Hne].
  - rewrite lookup_insert_eq, He. simpl. by rewrite Hf.
  - by rewrite lookup_insert_ne.
Qed.

Lemma keeps_forEach_from {A} (f : A -> nat -> M unit) (l : list A) (i : nat) :
  (forall x j, keeps_cards (f x j)) -> keeps_cards (forEach_from f l i).
Proof.
  intros Hf. revert i. induction l as [|x l IH]; intros i; [done|].
  simpl. apply keeps_bind; [apply Hf|]. intros _. apply IH.
Qed.

Create HintDb keeps.
#[local] Hint Resolve keeps_ret keeps_read keeps_deref keeps_getElement
  keeps_setTimeout keeps_set_activeCard : keeps.

(** Breaks a computation into its statements. *)
Ltac keeps :=
  repeat first
    [ progress auto with keeps
    | apply keeps_modifyElement; intros [];
      unfold classList_add; try case_match; done
    | apply keeps_forEach_from; intros ? ?
    | apply keeps_bind; [|intros ?]
    | match goal with
      | |- keeps_cards (match ?x with _ => _ end) => destruct x
      | |- keeps_cards (if ?x then _ else _) => destruct x
      end ].

Lemma Galleries_modalEffect_keeps (cardSize delay modalHeight modalWidth : number) :
  keeps_cards (Galleries.modalEffect cardSize delay modalHeight modalWidth).
Proof. unfold Galleries.modalEffect. keeps. Qed.

Lemma Part000_modalEffect_keeps : keeps_cards Part000.modalEffect.
Proof. unfold Part000.modalEffect, invoke_effect, Part000.animateModal. keeps. Qed.

Lemma Galleries_displayGalleryCards_keeps (delay : number) :
  keeps_cards (Galleries.displayGalleryCards delay).
Proof. unfold Galleries.displayGalleryCards, querySelectorAll, forEach. keeps. Qed.

Lemma Part000_displayGalleryCards_keeps (delay : value) :
  keeps_cards (Part000.displayGalleryCards delay).
Proof. unfold Part000.displayGalleryCards, querySelectorAll, forEach. keeps. Qed.

Lemma Galleries_observerCallback_keeps (delay : number)
    (entries : list IntersectionObserverEntry) :
  keeps_cards (Galleries.observerCallback delay entries).
Proof. unfold Galleries.observerCallback, forEach. keeps. Qed.

Lemma Part000_setObserverCallback_keeps (delay : value)
    (entries : list IntersectionObserverEntry) :
  keeps_cards (Part000.setObserverCallback delay entries).
Proof. unfold Part000.setObserverCallback, forEach. keeps. Qed.

Lemma run_callback_keeps (cb : callback) : keeps_cards (run_callback cb).
Proof.
  destruct cb; unfold run_callback, Galleries.expandModal, Part000.expandModal;
    keeps.
Qed.

Lemma handle_keeps (h : handler) : keeps_cards (handle h).
Proof. destruct h; unfold handle; keeps. Qed.

(** A mounted card stays mounted through whatever keeps the cards: each
    effect, timer and event handler of the two versions. *)
Lemma card_mounted_kept {A} (m : M A) (w : world) (i : nat) (n : Node) :
  keeps_cards m -> card_mounted w i n -> card_mounted (m w).2 i n.
Proof.
  intros Hm (Href & e & He & Hindex). destruct (Hm w) as [Hrefs Hdata].
  split; [by rewrite Hrefs|].
  specialize (Hdata n). rewrite He in Hdata. simpl in Hdata.
  destruct (dom (m w).2 !! n) as [e'|]; [|done].
  exists e'. split; [done|]. simpl in Hdata. congruence.
Qed.

(** ** The index given to the modal *)

Lemma gallery_render_passes (cardSize modalHeight modalWidth : number)
    (data : pageData) (w : world) (v : prop) :
  activeCardIndex_in w = Some v ->
  passes_index (gallery_render cardSize modalHeight modalWidth data w) v.
Proof.
  intros Hv. rewrite gallery_render_run, Hv.
  destruct (select_modal cardSize modalHeight modalWidth data v)
    as (props & Hsel & Hget & _).
  by exists (gallery_view cardSize modalHeight modalWidth data v), props.
Qed.

(** C10. The index of the active card goes through the DOM and back: after
    a click on the card at [i], the click handler has made that card's
    element the active card, and the next render gives the GalleryModal
    [Number] of the text of its [data-index], a number equal to [i]; with no
    active card the GalleryModal receives null.  The card is mounted
    ([card_mounted]) from React's commit on, through every effect, timer and
    handler ([card_mounted_kept]). *)
Theorem active_card_index_round_trip
    (cardSize modalHeight modalWidth : number) (data : pageData) (w : world)
    (i : nat) (n : Node) :
  card_mounted w i n ->
  (handle (OnClickCard i) w).1 = Normal tt
  /\ activeCard (handle (OnClickCard i) w).2 = Some n
  /\ (exists x : number,
        (x === num_of_nat i)%num = true
        /\ passes_index
             (Galleries.render cardSize modalHeight modalWidth data
                (handle (OnClickCard i) w).2) (PNum x)
        /\ passes_index (Part000.render data (handle (OnClickCard i) w).2)
             (PNum x))
  /\ (forall w0 : world,
        activeCard w0 = None ->
        passes_index (Galleries.render cardSize modalHeight modalWidth data w0) PNull
        /\ passes_index (Part000.render data w0) PNull).
Proof.
  intros (Href & e & He & Hindex).
  assert (Hclick : handle (OnClickCard i) w = (Normal tt, set_activeCard (Some n) w)).
  { unfold handle, bind, read. by rewrite Href. }
  rewrite Hclick. split; [done|]. split; [done|]. split.
  - exists (Number (VStr (String_of_index i))).
    split; [apply Number_String_of_index|].
    assert (Hin : activeCardIndex_in (set_activeCard (Some n) w)
                  = Some (PNum (Number (VStr (String_of_index i))))).
    { unfold activeCardIndex_in. simpl. rewrite He. simpl.
      unfold dataset_get. by rewrite Hindex. }
    split; by apply gallery_render_passes.
  - intros w0 H0.
    assert (Hin : activeCardIndex_in w0 = Some PNull)
      by (unfold activeCardIndex_in; by rewrite H0).
    split; by apply gallery_render_passes.
Qed.

Lemma active_card_index_round_trip_witness :
  (handle (OnClickCard 1) (demo_world None)).1 = Normal tt
  /\ activeCard (handle (OnClickCard 1) (demo_world None)).2 = Some 5%nat
  /\ (exists x : number,
        (x === num_of_nat 1)%num = true
        /\ passes_index
             (Galleries.render Galleries.cardSize Galleries.modalHeight
                Galleries.modalWidth demo_data
                (handle (OnClickCard 1) (demo_world None)).2) (PNum x)
        /\ passes_index
             (Part000.render demo_data (handle (OnClickCard 1) (demo_world None)).2)
             (PNum x))
  /\ (forall w0 : world,
        activeCard w0 = None ->
        passes_index
          (Galleries.render Galleries.cardSize Galleries.modalHeight
             Galleries.modalWidth demo_data w0) PNull
        /\ passes_index (Part000.render demo_data w0) PNull).
Proof.
  apply (active_card_index_round_trip Galleries.cardSize Galleries.modalHeight
           Galleries.modalWidth demo_data (demo_world None) 1 5).
  split; [reflexivity|]. exists demo_card1. split; reflexivity.
Defined.

(** ** The two versions side by side *)





(** * Further properties *)

(** ** Relations kept by every statement *)

Section Preserves.
Context (R : world -> world -> Prop).
Hypothesis R_refl : forall w, R w w.
Hypothesis R_trans : forall w1 w2 w3, R w1 w2 -> R w2 w3 -> R w1 w3.

Lemma preserves_bind {A B} (m : M A) (k : A -> M B) :
  preserves R m -> (forall a, preserves R (k a)) -> preserves R (bind m k).
Proof.
  intros Hm Hk w. unfold bind. specialize (Hm w).
  destruct (m w) as [[a|] w']; [|done].
  simpl in Hm. eapply R_trans; [exact Hm|apply Hk].
Qed.

Lemma preserves_ret {A} (a : A) : preserves R (ret a).
Proof. intros w. apply R_refl. Qed.

Lemma preserves_read {A} (f : world -> A) : preserves R (read f).
Proof. intros w. apply R_refl. Qed.

Lemma preserves_deref {A} (o : option A) : preserves R (deref o).
Proof. intros w. destruct o; apply R_refl. Qed.

Lemma preserves_getElement (n : Node) : preserves R (getElement n).
Proof. intros w. unfold getElement. destruct (dom w !! n); apply R_refl. Qed.

Lemma preserves_modifyElement (n : Node) (f : element -> element) :
  (forall w e, dom w !! n = Some e -> R w (set_dom (<[n := f e]> (dom w)) w)) ->
  preserves R (modifyElement n f).
Proof.
  intros Hf w. unfold modifyElement, bind, getElement.
  destruct (dom w !! n) as [e|] eqn:He; [|apply R_refl].
  by apply Hf.
Qed.

Lemma preserves_forEach_from {A} (f : A -> nat -> M unit) (l : list A) (i : nat) :
  (forall x j, preserves R (f x j)) -> preserves R (forEach_from f l i).
Proof.
  intros Hf. revert i. induction l as [|x l IH]; intros i; [apply preserves_ret|].
  simpl. apply preserves_bind; [apply Hf|]. intros _. apply IH.
Qed.
End Preserves.

(** Breaks a computation into its statements; [refl] and [trans] are the
    proofs that the relation is a preorder, [leaf] deals with the statements
    that change the world. *)
Ltac preserving refl trans leaf :=
  repeat match goal with
    | |- preserves _ (bind _ _) => apply (preserves_bind _ trans); [|intros ?]
    | |- preserves _ (ret _) => apply (preserves_ret _ refl)
    | |- preserves _ (read _) => apply (preserves_read _ refl)
    | |- preserves _ (deref _) => apply (preserves_deref _ refl)
    | |- preserves _ (getElement _) => apply (preserves_getElement _ refl)
    | |- preserves _ (forEach_from _ _ _) =>
        apply (preserves_forEach_from _ refl trans); intros ? ?
    | |- preserves _ (match ?x with _ => _ end) => destruct x
    | |- preserves _ (if ?x then _ else _) => destruct x
    | |- _ => solve [leaf]
    end.

(** ** The structure of the page *)

Lemma same_structure_refl (w : world) : same_structure w w.
Proof. by repeat split. Qed.

Lemma same_structure_trans (w1 w2 w3 : world) :
  same_structure w1 w2 -> same_structure w2 w3 -> same_structure w1 w3.
Proof.
  intros (H1 & H2 & H3 & H4 & H5 & H6 & H7) (G1 & G2 & G3 & G4 & G5 & G6 & G7).
  repeat split; try congruence.
Qed.

Lemma same_structure_modify (n : Node) (f : element -> element) :
  (forall e, geometry (f e) = geometry e) ->
  preserves same_structure (modifyElement n f).
Proof.
  intros Hf. apply (preserves_modifyElement _ same_structure_refl).
  intros w e He. repeat split. intros k. simpl.
  destruct (decide (n = k)) as [<-|Hne].
  - rewrite lookup_insert_eq, He. simpl. by rewrite Hf.
  - by rewrite lookup_insert_ne.
Qed.

Lemma same_structure_setTimeout (cb : callback) (t : number) :
  preserves same_structure (setTimeout cb t).
Proof. intros w. by repeat split. Qed.

Lemma same_structure_set_activeCard (c : option Node) :
  preserves same_structure (fun w => (Normal tt, set_activeCard c w)).
Proof. intros w. by repeat split. Qed.

Lemma geometry_clear_style (e : element) : geometry (clear_style e) = geometry e.
Proof. done. Qed.

Lemma geometry_set_transform (t : list transform_fn) (e : element) :
  geometry (set_transform t e) = geometry e.
Proof. done. Qed.

Lemma geometry_classList_add (c : string) (e : element) :
  geometry (classList_add c e) = geometry e.
Proof. unfold classList_add. by destruct (has_class c e). Qed.

Lemma geometry_classList_remove (c : string) (e : element) :
  geometry (classList_remove c e) = geometry e.
Proof. done. Qed.

Ltac structure_leaf :=
  idtac;
  match goal with
  | |- preserves _ (setTimeout _ _) => apply same_structure_setTimeout
  | |- preserves _ (modifyElement _ (classList_add _)) =>
      apply same_structure_modify; intros ?; apply geometry_classList_add
  | |- preserves _ (modifyElement _ _) =>
      apply same_structure_modify; intros ?; reflexivity
  | |- preserves _ (fun w => (Normal tt, set_activeCard _ w)) =>
      apply same_structure_set_activeCard
  end.

(** States a goal about the world after [m] as a goal about [m]. *)
Ltac as_preserves R :=
  match goal with
  | w : world |- R ?w0 (?m ?w0).2 => revert w0; change (preserves R m)
  end.

Ltac structure :=
  try as_preserves same_structure;
  preserving same_structure_refl same_structure_trans structure_leaf.

Lemma run_callback_structure (cb : callback) :
  preserves same_structure (run_callback cb).
Proof.
  destruct cb; unfold run_callback, Galleries.expandModal, Part000.expandModal;
    structure.
Qed.

Lemma fire_timer_structure (i : nat) (w : world) :
  same_structure w (fire_timer i w).
Proof.
  unfold fire_timer. destruct (timers w !! i) as [[t cb]|]; [|apply same_structure_refl].
  eapply same_structure_trans; [|apply run_callback_structure].
  by repeat split.
Qed.

Lemma step_structure (ev : event) (w : world) : same_structure w (step ev w).
Proof.
  destruct ev as [[]|[] entries|[]|i|h]; cbn [step].
  - unfold Galleries.displayGalleryCards, querySelectorAll, forEach.
    structure.
  - unfold Part000.displayGalleryCards, querySelectorAll, forEach.
    structure.
  - unfold Galleries.observerCallback, forEach. structure.
  - unfold Part000.setObserverCallback, forEach. structure.
  - unfold Galleries.modalEffect. structure.
  - unfold Part000.modalEffect, invoke_effect, Part000.animateModal.
    structure.
  - apply fire_timer_structure.
  - destruct h; unfold handle; structure.
Qed.

Lemma run_events_snoc (evs : list event) (ev : event) (w : world) :
  run_events (evs ++ [ev]) w = step ev (run_events evs w).
Proof. unfold run_events. by rewrite foldl_app. Qed.

Lemma card_mounted_structure (w w' : world) (i : nat) (n : Node) :
  same_structure w w' -> card_mounted w i n -> card_mounted w' i n.
Proof.
  intros (_ & _ & _ & Hrefs & _ & _ & Hgeo) (Href & e & He & Hindex).
  split; [by rewrite Hrefs|].
  specialize (Hgeo n). rewrite He in Hgeo.
  destruct (dom w' !! n) as [e'|]; [|done].
  exists e'. split; [done|].
  assert (dataset e' = dataset e) as -> by (unfold geometry in Hgeo; simpl in Hgeo; congruence).
  done.
Qed.


(** X2. A card that React mounted (its element is held by [cardRefs[i]] and
    carries [String(i)] as [data-index]) stays mounted through any sequence
    of events of the page, so that a later click on it still gives the
    GalleryModal the index [i]. *)
Theorem mounted_cards_stay_mounted
    (evs : list event) (w : world) (i : nat) (n : Node) :
  card_mounted w i n -> card_mounted (run_events evs w) i n.
Proof.
  intros Hmounted.
  induction evs as [|ev evs IH] using rev_ind; [done|].
  rewrite run_events_snoc.
  eapply card_mounted_structure; [apply step_structure|exact IH].
Qed.

Lemma mounted_cards_stay_mounted_witness :
  card_mounted
    (run_events
       [CardsReveal GalleriesJs; UserEvent (OnClickCard 0); ModalEffect GalleriesJs;
        TimerFires 0; TimerFires 0; TimerFires 0; UserEvent (OnMouseDownCard 1)]
       (demo_world None))
    1 5.
Proof.
  apply (mounted_cards_stay_mounted _ (demo_world None) 1 5).
  split; [reflexivity|]. exists demo_card1. split; reflexivity.
Defined.

(** ** Classes *)

Lemma keeps_class_refl (c : string) (w : world) : keeps_class c w w.
Proof. intros n e He Hc. by exists e. Qed.

Lemma keeps_class_trans (c : string) (w1 w2 w3 : world) :
  keeps_class c w1 w2 -> keeps_class c w2 w3 -> keeps_class c w1 w3.
Proof.
  intros H12 H23 n e He Hc.
  destruct (H12 n e He Hc) as (e2 & He2 & Hc2). by apply (H23 n e2).
Qed.

Lemma keeps_class_modify (c : string) (n : Node) (f : element -> element) :
  (forall e, c ∈ classList e -> c ∈ classList (f e)) ->
  preserves (keeps_class c) (modifyElement n f).
Proof.
  intros Hf. apply (preserves_modifyElement _ (keeps_class_refl c)).
  intros w e He k e0 Hk Hc. simpl.
  destruct (decide (n = k)) as [<-|Hne].
  - rewrite lookup_insert_eq. exists (f e). split; [done|].
    apply Hf. congruence.
  - rewrite lookup_insert_ne by done. by exists e0.
Qed.

Lemma classList_add_keeps (c c0 : string) (e : element) :
  c ∈ classList e -> c ∈ classList (classList_add c0 e).
Proof.
  intros Hc. unfold classList_add. destruct (has_class c0 e); [done|].
  simpl. apply elem_of_app. by left.
Qed.

Lemma classList_add_has (c : string) (e : element) :
  c ∈ classList (classList_add c e).
Proof.
  unfold classList_add, has_class. case_bool_decide; [done|].
  simpl. apply elem_of_app. right. by apply list_elem_of_singleton.
Qed.

Lemma classList_remove_elem (c c0 : string) (e : element) :
  c ∈ classList (classList_remove c0 e) <-> c ∈ classList e /\ c <> c0.
Proof.
  unfold classList_remove. simpl.
  rewrite !list_elem_of_In, filter_In, negb_true_iff.
  split; intros [Hin Hne]; (split; [done|]).
  - intros ->. by rewrite String.eqb_refl in Hne.
  - by apply String.eqb_neq.
Qed.

Ltac keeps_class_leaf :=
  idtac;
  match goal with
  | |- preserves _ (setTimeout _ _) => intros ? ? ? ? ?; by eexists
  | |- preserves _ (fun w => (Normal tt, set_activeCard _ w)) =>
      intros ? ? ? ? ?; by eexists
  | |- preserves _ (modifyElement _ (classList_add _)) =>
      apply keeps_class_modify; intros ?; apply classList_add_keeps
  | |- preserves _ (modifyElement _ (classList_remove _)) =>
      apply keeps_class_modify; intros ? ?; by apply classList_remove_elem
  | |- preserves _ (modifyElement _ _) =>
      apply keeps_class_modify; by intros ?
  end.

Ltac keeps_class c :=
  try as_preserves (keeps_class c);
  preserving (keeps_class_refl c) (keeps_class_trans c) keeps_class_leaf.

(** A timer's callback takes no class away. *)
Lemma run_callback_keeps_class (c : string) (cb : callback) :
  preserves (keeps_class c) (run_callback cb).
Proof.
  destruct cb; unfold run_callback, Galleries.expandModal, Part000.expandModal;
    keeps_class c.
Qed.

Lemma fire_timer_keeps_class (c : string) (i : nat) (w : world) :
  keeps_class c w (fire_timer i w).
Proof.
  unfold fire_timer. destruct (timers w !! i) as [[t cb]|]; [|apply keeps_class_refl].
  eapply keeps_class_trans; [|apply run_callback_keeps_class].
  intros n e He Hc. by exists e.
Qed.

Lemma step_keeps_class (c : string) (ev : event) (w : world) :
  c <> "is-active" -> keeps_class c w (step ev w).
Proof.
  intros Hc. destruct ev as [[]|[] entries|[]|i|h]; cbn [step].
  - unfold Galleries.displayGalleryCards, querySelectorAll, forEach.
    keeps_class c.
  - unfold Part000.displayGalleryCards, querySelectorAll, forEach.
    keeps_class c.
  - unfold Galleries.observerCallback, forEach. keeps_class c.
  - unfold Part000.setObserverCallback, forEach. keeps_class c.
  - unfold Galleries.modalEffect. keeps_class c.
  - unfold Part000.modalEffect, invoke_effect, Part000.animateModal.
    keeps_class c.
  - apply fire_timer_keeps_class.
  - destruct h; unfold handle; keeps_class c.
Qed.

(** X3. No class is ever taken away from an element, except is-active:
    through any sequence of events of the page, in either version, an element
    that has a class other than is-active is still there and still has it.
    A card that was revealed (is-visible) or has entered (has-entered) stays
    so. *)
Theorem classes_are_never_removed
    (evs : list event) (w : world) (c : string) :
  c <> "is-active" -> keeps_class c w (run_events evs w).
Proof.
  intros Hc.
  induction evs as [|ev evs IH] using rev_ind; [apply keeps_class_refl|].
  rewrite run_events_snoc.
  eapply keeps_class_trans; [exact IH|by apply step_keeps_class].
Qed.

Lemma classes_are_never_removed_witness :
  keeps_class "gallery__card" (demo_world None)
    (run_events
       [CardsReveal Part000Js; UserEvent (OnClickCard 1); ModalEffect Part000Js;
        TimerFires 2; TimerFires 0]
       (demo_world None)).
Proof.
  apply (classes_are_never_removed _ (demo_world None) "gallery__card").
  discriminate.
Defined.

Lemma adds_animation_only_refl (w : world) : adds_animation_only w w.
Proof. intros Hq. split; [done|]. intros n c e' _ He' Hc. by exists e'. Qed.

Lemma adds_animation_only_trans (w1 w2 w3 : world) :
  adds_animation_only w1 w2 -> adds_animation_only w2 w3 ->
  adds_animation_only w1 w3.
Proof.
  intros H12 H23 Hq. destruct (H12 Hq) as [Hq2 Hc2].
  destruct (H23 Hq2) as [Hq3 Hc3]. split; [done|].
  intros n c e3 Hc He3 Hin.
  destruct (Hc3 n c e3 Hc He3 Hin) as (e2 & He2 & Hin2). by apply (Hc2 n c e2).
Qed.

Lemma adds_animation_only_modify (n : Node) (f : element -> element) :
  (forall e c, c ∉ animation_classes -> c ∈ classList (f e) -> c ∈ classList e) ->
  preserves adds_animation_only (modifyElement n f).
Proof.
  intros Hf. apply (preserves_modifyElement _ adds_animation_only_refl).
  intros w e He Hq. split; [done|]. intros k c e' Hc Hk Hin. simpl in Hk.
  destruct (decide (n = k)) as [<-|Hne].
  - rewrite lookup_insert_eq in Hk. injection Hk as <-.
    exists e. split; [done|]. by apply (Hf e c).
  - rewrite lookup_insert_ne in Hk by done. by exists e'.
Qed.

Lemma adds_animation_only_setTimeout (cb : callback) (t : number) :
  timer_of_code cb -> preserves adds_animation_only (setTimeout cb t).
Proof.
  intros Hcb w Hq. split.
  - unfold code_timers. simpl. apply Forall_app. split; [done|].
    by apply Forall_singleton.
  - intros n c e' _ He' Hin. by exists e'.
Qed.

Lemma classList_add_new (c c0 : string) (e : element) :
  c ∈ classList (classList_add c0 e) -> c ∈ classList e \/ c = c0.
Proof.
  unfold classList_add. destruct (has_class c0 e); [by left|].
  simpl. rewrite elem_of_app, list_elem_of_singleton. tauto.
Qed.

Lemma classList_add_animation (c0 : string) (e : element) (c : string) :
  c0 ∈ animation_classes ->
  c ∉ animation_classes -> c ∈ classList (classList_add c0 e) -> c ∈ classList e.
Proof.
  intros H0 Hc Hin. apply classList_add_new in Hin as [Hin| ->]; done.
Qed.

Ltac adds_animation_leaf :=
  idtac;
  match goal with
  | |- preserves _ (setTimeout _ _) =>
      apply adds_animation_only_setTimeout; simpl; auto
  | |- preserves _ (fun w => (Normal tt, set_activeCard _ w)) =>
      intros ? ?; split; [done|]; intros ? ? ? ? ? ?; by eexists
  | |- preserves _ (modifyElement _ (classList_add _)) =>
      apply adds_animation_only_modify; intros ? ?;
      apply classList_add_animation; set_solver
  | |- preserves _ (modifyElement _ (classList_remove _)) =>
      apply adds_animation_only_modify; intros ? ? ? ?;
      by eapply classList_remove_elem
  | |- preserves _ (modifyElement _ _) =>
      apply adds_animation_only_modify; by intros ? ? ?
  end.

Ltac adds_animation :=
  try as_preserves adds_animation_only;
  preserving adds_animation_only_refl adds_animation_only_trans
    adds_animation_leaf.

Lemma run_callback_adds_animation (cb : callback) :
  timer_of_code cb -> preserves adds_animation_only (run_callback cb).
Proof.
  destruct cb as [n c| |]; intros Hcb;
    unfold run_callback, Galleries.expandModal, Part000.expandModal.
  - apply adds_animation_only_modify. intros e c'.
    apply classList_add_animation. unfold animation_classes.
    destruct Hcb as [-> | ->]; set_solver.
  - adds_animation.
  - adds_animation.
Qed.

Lemma fire_timer_adds_animation (i : nat) (w : world) :
  adds_animation_only w (fire_timer i w).
Proof.
  unfold fire_timer.
  destruct (timers w !! i) as [[t cb]|] eqn:Ht; [|apply adds_animation_only_refl].
  intros Hq.
  assert (Hcb : timer_of_code cb).
  { unfold code_timers in Hq. rewrite Forall_lookup in Hq. apply (Hq i (t, cb) Ht). }
  assert (Hq0 : code_timers (set_timers (delete i (timers w)) w)).
  { unfold code_timers in *. simpl.
    by apply Forall_delete. }
  destruct (run_callback_adds_animation cb Hcb _ Hq0) as [H1 H2].
  split; [exact H1|exact H2].
Qed.

Lemma step_adds_animation (ev : event) (w : world) :
  adds_animation_only w (step ev w).
Proof.
  destruct ev as [[]|[] entries|[]|i|h]; cbn [step].
  - unfold Galleries.displayGalleryCards, querySelectorAll, forEach.
    adds_animation.
  - unfold Part000.displayGalleryCards, querySelectorAll, forEach.
    adds_animation.
  - unfold Galleries.observerCallback, forEach. adds_animation.
  - unfold Part000.setObserverCallback, forEach. adds_animation.
  - unfold Galleries.modalEffect. adds_animation.
  - unfold Part000.modalEffect, invoke_effect, Part000.animateModal.
    adds_animation.
  - apply fire_timer_adds_animation.
  - destruct h; unfold handle; adds_animation.
Qed.

(** X4. The code adds three classes and no other.  From a page whose queue
    holds only timers the code sets (an empty queue, for one), through any
    sequence of events in either version, the queue still holds only such
    timers, and a class an element has at the end, other than is-visible,
    has-entered and is-active, it had at the start. *)
Theorem only_animation_classes_are_added
    (evs : list event) (w : world) :
  code_timers w ->
  code_timers (run_events evs w)
  /\ forall (n : Node) (c : string) (e' : element),
       c ∉ animation_classes ->
       dom (run_events evs w) !! n = Some e' -> c ∈ classList e' ->
       exists e, dom w !! n = Some e /\ c ∈ classList e.
Proof.
  change (adds_animation_only w (run_events evs w)).
  induction evs as [|ev evs IH] using rev_ind; [apply adds_animation_only_refl|].
  rewrite run_events_snoc.
  eapply adds_animation_only_trans; [exact IH|apply step_adds_animation].
Qed.

Lemma only_animation_classes_are_added_witness :
  code_timers
    (run_events
       [CardsReveal GalleriesJs; UserEvent (OnClickCard 0); ModalEffect GalleriesJs;
        TimerFires 1; TimerFires 1]
       (demo_world None))
  /\ forall (n : Node) (c : string) (e' : element),
       c ∉ animation_classes ->
       dom (run_events
              [CardsReveal GalleriesJs; UserEvent (OnClickCard 0);
               ModalEffect GalleriesJs; TimerFires 1; TimerFires 1]
              (demo_world None)) !! n = Some e' ->
       c ∈ classList e' ->
       exists e, dom (demo_world None) !! n = Some e /\ c ∈ classList e.
Proof.
  apply (only_animation_classes_are_added _ (demo_world None)).
  apply Forall_nil_2.
Defined.

Lemma step_gallery_cards (ev : event) (w : world) :
  code_timers w -> gallery_cards (step ev w) = gallery_cards w.
Proof.
  intros Hq. unfold gallery_cards.
  destruct (step_structure ev w) as (Horder & _ & _ & _ & _ & _ & Hgeo).
  destruct (step_adds_animation ev w Hq) as [_ Hadded].
  pose proof (step_keeps_class "gallery__card" ev w) as Hkept.
  rewrite Horder. apply List.filter_ext. intros n.
  specialize (Hgeo n).
  destruct (dom (step ev w) !! n) as [e'|] eqn:He',
           (dom w !! n) as [e|] eqn:He; try done.
  unfold has_class. apply bool_decide_ext. split.
  - intros Hin. destruct (Hadded n "gallery__card" e') as (e0 & He0 & Hin0);
      [unfold animation_classes; rewrite !not_elem_of_cons;
       repeat split; try done; apply not_elem_of_nil|done..|].
    congruence.
  - intros Hin. destruct (Hkept ltac:(done) n e He Hin) as (e0 & He0 & Hin0).
    congruence.
Qed.

(** X5. The cards that [displayGalleryCards] finds are always the same: from
    a page whose queue holds only timers the code sets, through any sequence
    of events in either version, [querySelectorAll('.gallery__card')] gives
    the same elements in the same order. *)
Theorem gallery_cards_never_change (evs : list event) (w : world) :
  code_timers w ->
  code_timers (run_events evs w)
  /\ gallery_cards (run_events evs w) = gallery_cards w
  /\ (querySelectorAll "gallery__card" (run_events evs w)).1
     = (querySelectorAll "gallery__card" w).1.
Proof.
  intros Hq.
  assert (H : code_timers (run_events evs w)
              /\ gallery_cards (run_events evs w) = gallery_cards w).
  { induction evs as [|ev evs [IHq IH]] using rev_ind; [done|].
    rewrite run_events_snoc. split.
    - by apply step_adds_animation.
    - by rewrite step_gallery_cards. }
  destruct H as [H1 H2]. split; [done|]. split; [done|].
  unfold querySelectorAll, read. simpl. by f_equal.
Qed.

Lemma gallery_cards_never_change_witness :
  code_timers
    (run_events [CardsReveal Part000Js; TimerFires 1; TimerFires 0] (demo_world None))
  /\ gallery_cards
       (run_events [CardsReveal Part000Js; TimerFires 1; TimerFires 0]
          (demo_world None))
     = gallery_cards (demo_world None)
  /\ (querySelectorAll "gallery__card"
        (run_events [CardsReveal Part000Js; TimerFires 1; TimerFires 0]
           (demo_world None))).1
     = (querySelectorAll "gallery__card" (demo_world None)).1.
Proof.
  apply (gallery_cards_never_change _ (demo_world None)).
  apply Forall_nil_2.
Defined.

(** ** Timers that add a class *)

Lemma fire_list_cons (timer : number * callback) (l : list (number * callback))
    (w : world) :
  fire_list (timer :: l) w = fire_list l (fire timer.2 w).
Proof. done. Qed.

Lemma fire_keeps_elements (cb : callback) (w : world) (n : Node) :
  is_Some (dom w !! n) -> is_Some (dom (fire cb w) !! n).
Proof.
  intros [e He]. destruct (run_callback_structure cb w) as (_ & _ & _ & _ & _ & _ & Hgeo).
  specialize (Hgeo n). rewrite He in Hgeo. unfold fire.
  destruct (dom (run_callback cb w).2 !! n); [by eexists|done].
Qed.

Lemma fire_list_keeps_class (c : string) (l : list (number * callback)) (w : world) :
  keeps_class c w (fire_list l w).
Proof.
  revert w. induction l as [|timer l IH]; intros w; [apply keeps_class_refl|].
  rewrite fire_list_cons.
  eapply keeps_class_trans; [apply run_callback_keeps_class|apply IH].
Qed.

Lemma fire_AddClass (n : Node) (c : string) (e : element) (w : world) :
  dom w !! n = Some e ->
  fire (AddClass n c) w = set_dom (<[n := classList_add c e]> (dom w)) w.
Proof.
  intros He. unfold fire, run_callback. by rewrite (modifyElement_run _ _ _ _ He).
Qed.

(** Once the timers of a list have fired, in the order of the list, an
    element of the page for which the list has a timer adding [c] has the
    class [c]. *)
Lemma fire_list_adds (l : list (number * callback)) (w : world) (t : number)
    (n : Node) (c : string) :
  (t, AddClass n c) ∈ l -> is_Some (dom w !! n) ->
  exists e, dom (fire_list l w) !! n = Some e /\ c ∈ classList e.
Proof.
  revert w. induction l as [|timer l IH]; intros w Hin Hn.
  - by apply elem_of_nil in Hin.
  - rewrite fire_list_cons. apply elem_of_cons in Hin as [<-|Hin].
    + destruct Hn as [e He]. simpl.
      apply (fire_list_keeps_class c l _ n (classList_add c e)).
      * rewrite (fire_AddClass _ _ _ _ He). simpl. apply lookup_insert_eq.
      * apply classList_add_has.
    + apply IH; [done|]. by apply fire_keeps_elements.
Qed.

Lemma gallery_cards_elem (w : world) (n : Node) :
  n ∈ gallery_cards w ->
  exists e, dom w !! n = Some e /\ "gallery__card" ∈ classList e.
Proof.
  unfold gallery_cards. rewrite list_elem_of_In, filter_In. intros [_ H].
  destruct (dom w !! n) as [e|]; [|done].
  exists e. split; [done|]. by apply bool_decide_eq_true in H.
Qed.

Lemma step_CardsReveal (v : version) (w : world) :
  exists d : number,
    step (CardsReveal v) w
    = set_timers (timers w ++ reveal_timers d (gallery_cards w)) w.
Proof.
  destruct v; cbn [step].
  - exists Galleries.delay. by rewrite Galleries_displayGalleryCards_run.
  - exists NaN. by rewrite Part000_displayGalleryCards_run.
Qed.

Lemma reveal_timers_elem (d : number) (cards : list Node) (n : Node) :
  n ∈ cards -> exists t, (t, AddClass n "is-visible") ∈ reveal_timers d cards.
Proof.
  intros [i Hi]%list_elem_of_lookup.
  exists (reveal_timeout d i). apply list_elem_of_lookup. exists i.
  by rewrite reveal_timers_lookup, Hi.
Qed.

(** X6. The reveal reaches every card.  After [displayGalleryCards], in
    either version (also with the undefined delay of part_000), once the
    timers of the queue have fired, in whatever order, every element of
    class gallery__card has the class is-visible. *)
Theorem reveal_reaches_every_card
    (v : version) (w : world) (l : list (number * callback)) (n : Node) :
  l ≡ₚ timers (step (CardsReveal v) w) ->
  n ∈ gallery_cards w ->
  exists e,
    dom (fire_list l (set_timers [] (step (CardsReveal v) w))) !! n = Some e
    /\ "is-visible" ∈ classList e.
Proof.
  intros Hl Hn. destruct (step_CardsReveal v w) as [d Hstep].
  rewrite Hstep in *. simpl in Hl.
  destruct (reveal_timers_elem d _ n Hn) as [t Ht].
  apply (fire_list_adds l _ t).
  - rewrite Hl. apply elem_of_app. by right.
  - simpl. destruct (gallery_cards_elem w n Hn) as (e & He & _). by exists e.
Qed.

Lemma reveal_reaches_every_card_witness :
  exists e,
    dom (fire_list
           [(NaN, AddClass 5 "is-visible"); (NaN, AddClass 4 "is-visible")]
           (set_timers [] (step (CardsReveal Part000Js) (demo_world None))))
      !! 5%nat = Some e
    /\ "is-visible" ∈ classList e.
Proof.
  apply (reveal_reaches_every_card Part000Js (demo_world None)
           [(NaN, AddClass 5 "is-visible"); (NaN, AddClass 4 "is-visible")] 5).
  - apply Permutation_swap.
  - apply (bool_decide_unpack _). vm_compute. reflexivity.
Defined.

Lemma step_ObserverCall (v : version) (entries : list IntersectionObserverEntry)
    (w : world) :
  exists t : number,
    step (ObserverCall v entries) w
    = set_timers (timers w ++ entry_timers t entries) w.
Proof.
  destruct v; cbn [step].
  - eexists. by rewrite Galleries_observerCallback_run.
  - eexists. by rewrite Part000_setObserverCallback_run.
Qed.

(** X7. Lazy loading reaches every intersecting target.  After the observer
    callback, in either version, once the timers of the queue have fired, in
    whatever order, the target of every intersecting entry has the class
    has-entered. *)
Theorem lazy_loading_reaches_intersecting_targets
    (v : version) (entries : list IntersectionObserverEntry) (w : world)
    (l : list (number * callback)) (entry : IntersectionObserverEntry) :
  l ≡ₚ timers (step (ObserverCall v entries) w) ->
  entry ∈ entries ->
  isIntersecting entry = true ->
  is_Some (dom w !! target entry) ->
  exists e,
    dom (fire_list l (set_timers [] (step (ObserverCall v entries) w)))
      !! target entry = Some e
    /\ "has-entered" ∈ classList e.
Proof.
  intros Hl Hin Hint Htarget.
  destruct (step_ObserverCall v entries w) as [t Hstep].
  rewrite Hstep in *. simpl in Hl.
  apply (fire_list_adds l _ t); [|done].
  rewrite Hl. apply elem_of_app. right.
  apply entry_timers_elem. by exists entry.
Qed.

Lemma lazy_loading_reaches_intersecting_targets_witness :
  exists e,
    dom (fire_list
           (timers (step (ObserverCall GalleriesJs [mkEntry false 4; mkEntry true 5])
                      (demo_world None)))
           (set_timers []
              (step (ObserverCall GalleriesJs [mkEntry false 4; mkEntry true 5])
                 (demo_world None))))
      !! target (mkEntry true 5) = Some e
    /\ "has-entered" ∈ classList e.
Proof.
  apply (lazy_loading_reaches_intersecting_targets GalleriesJs
           [mkEntry false 4; mkEntry true 5] (demo_world None) _ (mkEntry true 5)).
  - reflexivity.
  - apply list_elem_of_further, list_elem_of_here.
  - reflexivity.
  - by exists demo_card1.
Defined.

Lemma set_dom_same (w : world) : set_dom (dom w) w = w.
Proof. by destruct w. Qed.

Lemma fire_AddClass_noop (n : Node) (c : string) (e : element) (w : world) :
  dom w !! n = Some e -> c ∈ classList e -> fire (AddClass n c) w = w.
Proof.
  intros He Hc. rewrite (fire_AddClass _ _ _ _ He).
  unfold classList_add, has_class. rewrite bool_decide_eq_true_2 by done.
  rewrite insert_id by done. apply set_dom_same.
Qed.

Lemma fire_list_noop (l : list (number * callback)) (w : world) :
  (forall t cb, (t, cb) ∈ l ->
     exists n c e, cb = AddClass n c /\ dom w !! n = Some e /\ c ∈ classList e) ->
  fire_list l w = w.
Proof.
  induction l as [|[t cb] l IH]; intros Hl; [done|].
  rewrite fire_list_cons. simpl.
  destruct (Hl t cb) as (n & c & e & -> & He & Hc); [apply list_elem_of_here|].
  rewrite (fire_AddClass_noop _ _ _ _ He Hc). apply IH.
  intros t' cb' Hin. apply (Hl t'). by apply list_elem_of_further.
Qed.

(** X8. Running the reveal again changes nothing.  (In galleries.js the
    first effect has no dependency list, so it runs after every render.)
    On a page with an empty queue whose cards all have is-visible,
    [displayGalleryCards] followed by its timers, in whatever order and in
    either version, gives back the very same world. *)
Theorem reveal_again_changes_nothing
    (v : version) (w : world) (l : list (number * callback)) :
  timers w = [] ->
  (forall n e, n ∈ gallery_cards w -> dom w !! n = Some e ->
               "is-visible" ∈ classList e) ->
  l ≡ₚ timers (step (CardsReveal v) w) ->
  fire_list l (set_timers [] (step (CardsReveal v) w)) = w.
Proof.
  intros Hq Hvisible Hl. destruct (step_CardsReveal v w) as [d Hstep].
  rewrite Hstep in *. simpl in Hl. rewrite Hq in Hl. simpl in Hl.
  assert (Hw : set_timers [] (set_timers (timers w ++ reveal_timers d (gallery_cards w)) w) = w).
  { destruct w. simpl in *. by subst. }
  rewrite Hw. apply fire_list_noop.
  intros t cb Hin. rewrite Hl in Hin.
  apply list_elem_of_lookup in Hin as [i Hi].
  rewrite reveal_timers_lookup in Hi.
  destruct (gallery_cards w !! i) as [n|] eqn:Hn; [|done].
  simpl in Hi. injection Hi as <- <-.
  assert (Hcard : n ∈ gallery_cards w) by (apply list_elem_of_lookup; eauto).
  destruct (gallery_cards_elem w n Hcard) as (e & He & _).
  exists n, "is-visible", e. eauto.
Qed.

Lemma reveal_again_changes_nothing_witness :
  fire_list (timers (step (CardsReveal Part000Js) demo_revealed))
    (set_timers [] (step (CardsReveal Part000Js) demo_revealed))
  = demo_revealed.
Proof.
  apply (reveal_again_changes_nothing Part000Js demo_revealed).
  - reflexivity.
  - intros n e Hn He. apply list_elem_of_In in Hn. vm_compute in Hn.
    destruct Hn as [<-|[<-|[]]]; vm_compute in He; injection He as <-;
      apply (bool_decide_unpack _); vm_compute; reflexivity.
  - reflexivity.
Defined.

(** ** What the modal effect touches *)

Lemma bind_fail {A B} (m : M A) (k : A -> M B) (w w' : world) :
  m w = (TypeError, w') -> bind m k w = (TypeError, w').
Proof. unfold bind. by intros ->. Qed.

Lemma getElement_fail (n : Node) (w : world) :
  dom w !! n = None -> getElement n w = (TypeError, w).
Proof. unfold getElement. by intros ->. Qed.

Lemma modifyElement_fail (n : Node) (f : element -> element) (w : world) :
  dom w !! n = None -> modifyElement n f w = (TypeError, w).
Proof.
  intros H. unfold modifyElement.
  by rewrite (bind_fail _ _ _ _ (getElement_fail _ _ H)).
Qed.

Lemma bind_throw {A B} (k : A -> M B) (w : world) :
  bind throw k w = (TypeError, w).
Proof. done. Qed.

Lemma deref_fail {A} (w : world) : @deref A None w = (TypeError, w).
Proof. done. Qed.

Lemma read_deref_fail {A} (f : world -> option A) (w : world) :
  f w = None -> (r <- read f ;; deref r) w = (TypeError, w).
Proof. unfold bind, read. by intros ->. Qed.

(** Runs the first statement of a computation, along each way it can go. *)
Ltac world_simpl :=
  cbn [dom document_order body scrollY timers activeCard cardRefs modalRef
       parentRef set_dom set_timers set_activeCard].

Ltac world_simpl_in E :=
  cbn [dom document_order body scrollY timers activeCard cardRefs modalRef
       parentRef set_dom set_timers set_activeCard] in E.

Ltac run1 :=
  world_simpl;
  lazymatch goal with
  | |- context [bind (getElement ?n) ?k ?w] =>
      let E := fresh "E" in
      destruct (dom w !! n) eqn:E;
      [ rewrite (bind_run _ k w _ _ (getElement_run _ _ _ E))
      | rewrite (bind_fail _ k w _ (getElement_fail _ _ E)) ]
  | |- context [bind (modifyElement ?n ?f) ?k ?w] =>
      let E := fresh "E" in
      destruct (dom w !! n) eqn:E;
      [ rewrite (bind_run _ k w _ _ (modifyElement_run _ f _ _ E))
      | rewrite (bind_fail _ k w _ (modifyElement_fail _ f _ E)) ]
  | |- context [bind (bind (read ?f) (fun r => deref r)) ?k ?w] =>
      let E := fresh "E" in
      destruct (f w) eqn:E;
      [ rewrite (bind_run _ k w _ _ (read_deref_run f _ _ E))
      | rewrite (bind_fail _ k w _ (read_deref_fail f _ E)) ]
  | |- context [bind (read ?f) ?k ?w] =>
      rewrite (bind_run _ k w _ _ (read_run f w))
  | |- context [bind (deref (Some ?a)) ?k ?w] =>
      change (bind (deref (Some a)) k w) with (k a w)
  | |- context [bind (deref None) ?k ?w] =>
      rewrite (bind_fail _ k w _ (deref_fail w))
  | |- context [bind (deref ?o) ?k ?w] =>
      let E := fresh "E" in destruct o eqn:E
  | |- context [bind (setTimeout ?cb ?t) ?k ?w] =>
      change (bind (setTimeout cb t) k w)
        with (k tt (set_timers (timers w ++ [(t, cb)]) w))
  | |- context [modifyElement ?n ?f ?w] =>
      let E := fresh "E" in
      destruct (dom w !! n) eqn:E;
      [ rewrite (modifyElement_run _ f _ _ E)
      | rewrite (modifyElement_fail _ f _ E) ]
  end;
  repeat match goal with
    | E : _ = Some _ |- _ => progress world_simpl_in E
    | E : _ = None |- _ => progress world_simpl_in E
    end.

Lemma lookup_after_clear (d : gmap nat element) (t m : Node) (tel mel1 : element) :
  d !! t = Some tel ->
  <[t := clear_style tel]> d !! m = Some mel1 ->
  exists mel, d !! m = Some mel /\ childNodes mel1 = childNodes mel.
Proof.
  intros Ht Hm. destruct (decide (t = m)) as [->|Hne].
  - rewrite lookup_insert_eq in Hm. injection Hm as <-. by exists tel.
  - rewrite lookup_insert_ne in Hm by done. by exists mel1.
Qed.

(** Closes a goal on an element that no update of the store touches. *)
Ltac untouched :=
  unfold setTimeout; world_simpl; cbn [fst snd]; world_simpl;
  rewrite ?lookup_insert_ne by congruence; try done.

Lemma Galleries_modalEffect_frame
    (cardSize delay modalHeight modalWidth : number) (w : world) (n : Node) :
  activeCard w <> Some n ->
  modalRef w <> Some n ->
  (forall m mel, modalRef w = Some m -> dom w !! m = Some mel ->
                 head (childNodes mel) <> Some n) ->
  dom (Galleries.modalEffect cardSize delay modalHeight modalWidth w).2 !! n
  = dom w !! n.
Proof.
  intros Ha Hm Hc. unfold Galleries.modalEffect.
  run1. destruct (activeCard w) as [t|] eqn:Et; [|done].
  repeat run1.
  all: try match goal with
         | E0 : ?d !! ?t = Some ?tel,
           E2 : <[?t:=clear_style ?tel]> ?d !! ?m = Some ?e1,
           E5 : head (childNodes ?e1) = Some ?c |- _ =>
             let mel := fresh "mel" in
             let H1 := fresh in
             let H2 := fresh in
             destruct (lookup_after_clear d t m tel e1 E0 E2)
               as (mel & H1 & H2);
             rewrite H2 in E5;
             assert (c <> n) by (intros ->; by eapply Hc)
         end.
  all: untouched.
Qed.

Lemma Part000_animateModal_frame (delay : value) (modalParent : option Node)
    (w : world) (n : Node) :
  activeCard w <> Some n ->
  modalRef w <> Some n ->
  (forall m mel, modalRef w = Some m -> dom w !! m = Some mel ->
                 head (childNodes mel) <> Some n) ->
  dom (Part000.animateModal delay (modalRef w) modalParent (activeCard w) w).2 !! n
  = dom w !! n.
Proof.
  intros Ha Hm Hc. unfold Part000.animateModal.
  destruct (activeCard w) as [t|] eqn:Et; [|done].
  destruct (modalRef w) as [m|] eqn:Em; [|done].
  repeat run1.
  all: try match goal with
         | E5 : head (childNodes ?e1) = Some ?c |- _ =>
             assert (c <> n) by (intros ->; by eapply Hc)
         end.
  all: untouched.
Qed.

(** X9. The modal effect touches three elements at most: the active card,
    the modal and the modal's first child.  In either version, and however
    the effect ends, every other element of the page is after the effect
    what it was before. *)
Theorem modal_effect_touches_three_elements
    (v : version) (w : world) (n : Node) :
  activeCard w <> Some n ->
  modalRef w <> Some n ->
  (forall m mel, modalRef w = Some m -> dom w !! m = Some mel ->
                 head (childNodes mel) <> Some n) ->
  dom (step (ModalEffect v) w) !! n = dom w !! n.
Proof.
  intros Ha Hm Hc. destruct v; cbn [step].
  - by apply Galleries_modalEffect_frame.
  - rewrite Part000_modalEffect_unfold. by apply Part000_animateModal_frame.
Qed.

Lemma modal_effect_touches_three_elements_witness :
  dom (step (ModalEffect GalleriesJs) (demo_world (Some 4%nat))) !! 5%nat
  = dom (demo_world (Some 4%nat)) !! 5%nat.
Proof.
  apply (modal_effect_touches_three_elements GalleriesJs (demo_world (Some 4%nat)) 5).
  - discriminate.
  - discriminate.
  - intros m mel [= <-] [= <-]. discriminate.
Defined.

(** X10. The clicked card returns to its default styles, and that is all
    that happens to it: when the effect runs on a clicked card that is
    neither the modal nor its image container, the card ends with an empty
    inline style (no transform, no other declaration) and is otherwise the
    element it was, in both versions. *)
Theorem clicked_card_returns_to_default_style
    (w : world) (t m c : Node) (tel mel : element)
    (cardSize delay modalHeight modalWidth : number) :
  card_clicked w t m c tel mel ->
  t <> m -> t <> c ->
  dom (Galleries.modalEffect cardSize delay modalHeight modalWidth w).2 !! t
  = Some (clear_style tel)
  /\ dom (Part000.modalEffect w).2 !! t = Some (clear_style tel)
  /\ inline (clear_style tel) = empty_style
  /\ classList (clear_style tel) = classList tel
  /\ geometry (clear_style tel) = geometry tel.
Proof.
  intros (Ht & Htel & Hm & Hmel & Hc & Hcm & [cel Hcel]) Htm Htc.
  apply head_cons in Hc as [rest Hch].
  split; [|split; [|done]].
  - unfold Galleries.modalEffect. step. rewrite Ht.
    do 6 step. rewrite Hch; cbn [head deref]; rewrite bind_ret.
    step. unfold setTimeout. lookup_dom.
  - rewrite Part000_modalEffect_unfold, Hm, Ht. unfold Part000.animateModal.
    cbn [deref]. rewrite bind_ret.
    do 4 step. rewrite Hch; cbn [head deref]; rewrite bind_ret.
    step. unfold setTimeout. lookup_dom.
Qed.

Lemma clicked_card_returns_to_default_style_witness :
  dom (Galleries.modalEffect Galleries.cardSize Galleries.delay
         Galleries.modalHeight Galleries.modalWidth
         (demo_world (Some 4%nat))).2 !! 4%nat
  = Some (clear_style demo_card0)
  /\ dom (Part000.modalEffect (demo_world (Some 4%nat))).2 !! 4%nat
     = Some (clear_style demo_card0)
  /\ inline (clear_style demo_card0) = empty_style
  /\ classList (clear_style demo_card0) = classList demo_card0
  /\ geometry (clear_style demo_card0) = geometry demo_card0.
Proof.
  apply (clicked_card_returns_to_default_style (demo_world (Some 4%nat)) 4 2 3
           demo_card0 demo_modal); [repeat split; done | discriminate ..].
Defined.

(** ** Exceptions *)

(** X11. A null modal ref.  When a card is active and [modalRef.current] is
    null, the effect ends in a TypeError in both versions and sets no timer;
    part_000 has by then changed nothing, galleries.js has already emptied
    the inline style of the card. *)
Theorem modal_effect_with_null_modal_ref
    (w : world) (t : Node) (tel : element)
    (cardSize delay modalHeight modalWidth : number) :
  activeCard w = Some t ->
  dom w !! t = Some tel ->
  modalRef w = None ->
  Galleries.modalEffect cardSize delay modalHeight modalWidth w
  = (TypeError, set_dom (<[t := clear_style tel]> (dom w)) w)
  /\ Part000.modalEffect w = (TypeError, w).
Proof.
  intros Ht Htel Hm. split.
  - unfold Galleries.modalEffect. step. rewrite Ht. do 2 step.
    erewrite bind_fail; [reflexivity|]. apply read_deref_fail. exact Hm.
  - by rewrite Part000_modalEffect_unfold, Hm, Ht.
Qed.

Lemma modal_effect_with_null_modal_ref_witness :
  Galleries.modalEffect Galleries.cardSize Galleries.delay Galleries.modalHeight
    Galleries.modalWidth
    (mkWorld demo_dom [] 0 (Fin 0) [] (Some 4%nat) [] None None)
  = (TypeError,
     set_dom (<[4%nat := clear_style demo_card0]> demo_dom)
       (mkWorld demo_dom [] 0 (Fin 0) [] (Some 4%nat) [] None None))
  /\ Part000.modalEffect
       (mkWorld demo_dom [] 0 (Fin 0) [] (Some 4%nat) [] None None)
     = (TypeError, mkWorld demo_dom [] 0 (Fin 0) [] (Some 4%nat) [] None None).
Proof.
  apply (modal_effect_with_null_modal_ref
           (mkWorld demo_dom [] 0 (Fin 0) [] (Some 4%nat) [] None None)
           4 demo_card0); reflexivity.
Defined.

(** X12. A modal without children.  When the modal has no child,
    [modal.childNodes[0]] is undefined and the effect ends in a TypeError at
    the assignment to its style, in both versions: by then the modal has been
    moved over the card and scaled down, and no timer is set that would bring
    it back to its full size. *)
Theorem modal_effect_with_childless_modal
    (w : world) (t m : Node) (tel mel : element)
    (cardSize delay modalHeight modalWidth : number) :
  activeCard w = Some t ->
  dom w !! t = Some tel ->
  modalRef w = Some m ->
  dom w !! m = Some mel ->
  childNodes mel = [] ->
  ((Galleries.modalEffect cardSize delay modalHeight modalWidth w).1 = TypeError
   /\ timers (Galleries.modalEffect cardSize delay modalHeight modalWidth w).2
      = timers w
   /\ exists mel',
        dom (Galleries.modalEffect cardSize delay modalHeight modalWidth w).2 !! m
        = Some mel'
        /\ transform (inline mel')
           = [Translate (Galleries.activeCardX modalWidth tel)
                (Galleries.activeCardY modalHeight tel);
              ScaleX (cardSize / modalWidth)%num;
              ScaleY (cardSize / modalHeight)%num])
  /\ ((Part000.modalEffect w).1 = TypeError
      /\ timers (Part000.modalEffect w).2 = timers w
      /\ exists mel',
           dom (Part000.modalEffect w).2 !! m = Some mel'
           /\ transform (inline mel')
              = [Translate (Part000.targetX mel tel) (Part000.targetY mel tel);
                 ScaleX (num_of_Z (offsetWidth tel) / num_of_Z (offsetWidth mel))%num;
                 ScaleY (num_of_Z (offsetHeight tel) / num_of_Z (offsetHeight mel))%num]).
Proof.
  intros Ht Htel Hm Hmel Hch.
  assert (Hcases : (t = m /\ tel = mel) \/ t <> m).
  { destruct (decide (t = m)) as [->|]; [left; split; congruence|by right]. }
  split.
  - unfold Galleries.modalEffect. step. rewrite Ht.
    destruct Hcases as [[-> ->]|Htm].
    all: do 6 step; cbn [childNodes clear_style classList_remove set_inline set_classList].
    all: rewrite Hch; cbn [head deref].
    all: rewrite bind_throw.
    all: split; [done|]; split; [done|].
    all: eexists; split; [lookup_dom|done].
  - rewrite Part000_modalEffect_unfold, Hm, Ht. unfold Part000.animateModal.
    cbn [deref]. rewrite bind_ret.
    destruct Hcases as [[-> ->]|Htm].
    all: do 4 step.
    all: rewrite Hch; cbn [head deref].
    all: rewrite bind_throw.
    all: split; [done|]; split; [done|].
    all: eexists; split; [lookup_dom|done].
Qed.

Lemma modal_effect_with_childless_modal_witness :
  ((Galleries.modalEffect Galleries.cardSize Galleries.delay Galleries.modalHeight
      Galleries.modalWidth
      (mkWorld demo_dom [] 0 (Fin 0) [] (Some 4%nat) [] (Some 3%nat) None)).1
   = TypeError
   /\ timers (Galleries.modalEffect Galleries.cardSize Galleries.delay
                Galleries.modalHeight Galleries.modalWidth
                (mkWorld demo_dom [] 0 (Fin 0) [] (Some 4%nat) [] (Some 3%nat) None)).2
      = []
   /\ exists mel',
        dom (Galleries.modalEffect Galleries.cardSize Galleries.delay
               Galleries.modalHeight Galleries.modalWidth
               (mkWorld demo_dom [] 0 (Fin 0) [] (Some 4%nat) [] (Some 3%nat) None)).2
          !! 3%nat
        = Some mel'
        /\ transform (inline mel')
           = [Translate (Galleries.activeCardX Galleries.modalWidth demo_card0)
                (Galleries.activeCardY Galleries.modalHeight demo_card0);
              ScaleX (Galleries.cardSize / Galleries.modalWidth)%num;
              ScaleY (Galleries.cardSize / Galleries.modalHeight)%num])
  /\ ((Part000.modalEffect
         (mkWorld demo_dom [] 0 (Fin 0) [] (Some 4%nat) [] (Some 3%nat) None)).1
      = TypeError
      /\ timers (Part000.modalEffect
                   (mkWorld demo_dom [] 0 (Fin 0) [] (Some 4%nat) [] (Some 3%nat) None)).2
         = []
      /\ exists mel',
           dom (Part000.modalEffect
                  (mkWorld demo_dom [] 0 (Fin 0) [] (Some 4%nat) [] (Some 3%nat) None)).2
             !! 3%nat
           = Some mel'
           /\ transform (inline mel')
              = [Translate (Part000.targetX demo_container demo_card0)
                   (Part000.targetY demo_container demo_card0);
                 ScaleX (num_of_Z (offsetWidth demo_card0)
                         / num_of_Z (offsetWidth demo_container))%num;
                 ScaleY (num_of_Z (offsetHeight demo_card0)
                         / num_of_Z (offsetHeight demo_container))%num]).
Proof.
  apply (modal_effect_with_childless_modal
           (mkWorld demo_dom [] 0 (Fin 0) [] (Some 4%nat) [] (Some 3%nat) None)
           4 3 demo_card0 demo_container); reflexivity.
Defined.

(** X13. A null ref of the cards' container.  The timer of galleries.js
    reads [galleryCardsRef.current] when it fires: if it is null then, the
    timer ends in a TypeError and changes nothing.  part_000 reads
    [modalParentRef.current] when the effect runs: if it is null then, the
    effect still completes and sets its timer at 600, but that timer ends in
    a TypeError and changes nothing whenever it fires, so the modal stays
    scaled down over the card. *)
Theorem expand_timer_with_null_parent_ref
    (w : world) (t m c : Node) (tel mel : element) :
  card_clicked w t m c tel mel ->
  parentRef w = None ->
  (Part000.modalEffect w).1 = Normal tt
  /\ timers (Part000.modalEffect w).2
     = timers w ++ [(num_of_Z 600, Part000Expand m c None)]
  /\ (forall w2 : world,
        run_callback (Part000Expand m c None) w2 = (TypeError, w2))
  /\ (forall (modalHeight modalWidth : number) (w2 : world),
        parentRef w2 = None ->
        run_callback (GalleriesExpand modalHeight modalWidth m c) w2
        = (TypeError, w2)).
Proof.
  intros (Ht & Htel & Hm & Hmel & Hc & Hcm & [cel Hcel]) Hp.
  apply head_cons in Hc as [rest Hch].
  destruct (Part000_animateModal_run (VNum Part000.delay) None
              w t m c tel mel cel rest)
    as (w' & mel' & cel' & Hrun & _ & _ & _ & _ & Htimers); try done.
  rewrite Part000_modalEffect_unfold, Hm, Ht, Hp, Hrun.
  split; [done|]. split; [exact Htimers|]. split.
  - intros w2. unfold run_callback, Part000.expandModal.
    repeat run1; done.
  - intros modalHeight modalWidth w2 Hp2.
    unfold run_callback, Galleries.expandModal.
    repeat run1; try done; congruence.
Qed.

Lemma expand_timer_with_null_parent_ref_witness :
  (Part000.modalEffect
     (mkWorld demo_dom [] 0 (Fin 0) [] (Some 4%nat) [] (Some 2%nat) None)).1
  = Normal tt
  /\ timers (Part000.modalEffect
               (mkWorld demo_dom [] 0 (Fin 0) [] (Some 4%nat) [] (Some 2%nat) None)).2
     = [] ++ [(num_of_Z 600, Part000Expand 2 3 None)]
  /\ (forall w2 : world,
        run_callback (Part000Expand 2 3 None) w2 = (TypeError, w2))
  /\ (forall (modalHeight modalWidth : number) (w2 : world),
        parentRef w2 = None ->
        run_callback (GalleriesExpand modalHeight modalWidth 2 3) w2
        = (TypeError, w2)).
Proof.
  apply (expand_timer_with_null_parent_ref
           (mkWorld demo_dom [] 0 (Fin 0) [] (Some 4%nat) [] (Some 2%nat) None)
           4 2 3 demo_card0 demo_modal).
  - repeat split; done.
  - reflexivity.
Defined.

(** ** Where the modal ends *)





(** ** The class is-active *)

(** X15. In galleries.js the class is-active marks the expanded modal.
    After the modal effect ran on a clicked card, the modal does not have
    the class is-active and has every other class it had; once the timer of
    the effect has fired, on a page that still holds the elements, the modal
    has the class is-active. *)
Theorem is_active_marks_the_expanded_modal
    (w : world) (t m c p : Node) (tel mel : element)
    (cardSize delay modalHeight modalWidth : number) :
  card_clicked w t m c tel mel ->
  (exists mel',
     dom (Galleries.modalEffect cardSize delay modalHeight modalWidth w).2 !! m
     = Some mel'
     /\ ("is-active" ∉ classList mel')
     /\ forall cls, cls <> "is-active" ->
                    (cls ∈ classList mel' <-> cls ∈ classList mel))
  /\ forall w2 : world,
       parentRef w2 = Some p -> ready w2 m c p ->
       exists mel2,
         dom (run_callback (GalleriesExpand modalHeight modalWidth m c) w2).2 !! m
         = Some mel2
         /\ "is-active" ∈ classList mel2.
Proof.
  intros (Ht & Htel & Hm & Hmel & Hc & Hcm & [cel Hcel]).
  apply head_cons in Hc as [rest Hch].
  split.
  - assert (Hcases : (t = m /\ tel = mel) \/ (t <> m /\ c = t /\ cel = tel)
                     \/ (t <> m /\ c <> t)).
    { destruct (decide (t = m)) as [->|]; [left; split; congruence|right].
      destruct (decide (c = t)) as [->|]; [left; repeat split; congruence|by right]. }
    unfold Galleries.modalEffect. step. rewrite Ht.
    destruct Hcases as [[-> ->]|[(Htm & -> & ->)|[Htm Hct]]].
    all: do 6 step; cbn [childNodes clear_style classList_remove set_inline set_classList].
    all: rewrite Hch; cbn [head deref]; rewrite bind_ret.
    all: step; unfold setTimeout.
    all: eexists; split; [lookup_dom|].
    all: split; [intros H; by apply (classList_remove_elem _ _ mel) in H as [_ ?]|].
    all: intros cls Hcls; split; intros H.
    all: try (by apply (classList_remove_elem _ _ mel) in H as [? _]).
    all: by apply (classList_remove_elem cls "is-active" mel).
  - intros w2 Hp2 ([bel2 Hb2] & [mel2 Hm2] & [cel2 Hc2] & [pel2 Hpel2]).
    destruct (Galleries_expandModal_run modalHeight modalWidth w2 m c p
                bel2 mel2 cel2 pel2)
      as (w3 & mel3 & cel3 & Hrun3 & Hm3 & _ & Hactive & _); try done.
    unfold run_callback. rewrite Hrun3. by exists mel3.
Qed.

Lemma is_active_marks_the_expanded_modal_witness :
  (exists mel',
     dom (Galleries.modalEffect Galleries.cardSize Galleries.delay
            Galleries.modalHeight Galleries.modalWidth
            (demo_world (Some 4%nat))).2 !! 2%nat
     = Some mel'
     /\ ("is-active" ∉ classList mel')
     /\ forall cls, cls <> "is-active" ->
                    (cls ∈ classList mel' <-> cls ∈ classList demo_modal))
  /\ forall w2 : world,
       parentRef w2 = Some 1%nat -> ready w2 2 3 1 ->
       exists mel2,
         dom (run_callback
                (GalleriesExpand Galleries.modalHeight Galleries.modalWidth 2 3)
                w2).2 !! 2%nat
         = Some mel2
         /\ "is-active" ∈ classList mel2.
Proof.
  apply (is_active_marks_the_expanded_modal (demo_world (Some 4%nat)) 4 2 3 1
           demo_card0 demo_modal).
  repeat split; done.
Defined.

Lemma same_classLists_refl (w : world) : same_classLists w w.
Proof. done. Qed.

Lemma same_classLists_trans (w1 w2 w3 : world) :
  same_classLists w1 w2 -> same_classLists w2 w3 -> same_classLists w1 w3.
Proof. intros H12 H23 n. by rewrite H23, H12. Qed.

Lemma same_classLists_modify (n : Node) (f : element -> element) :
  (forall e, classList (f e) = classList e) ->
  preserves same_classLists (modifyElement n f).
Proof.
  intros Hf. apply (preserves_modifyElement _ same_classLists_refl).
  intros w e He k. simpl.
  destruct (decide (n = k)) as [<-|Hne].
  - rewrite lookup_insert_eq, He. simpl. by rewrite Hf.
  - by rewrite lookup_insert_ne.
Qed.

Ltac same_classLists_leaf :=
  idtac;
  match goal with
  | |- preserves _ (setTimeout _ _) => by intros ? ?
  | |- preserves _ (modifyElement _ _) =>
      apply same_classLists_modify; by intros ?
  end.

(** X16. part_000 never writes a class list in its modal code: however
    [animateModal] and its timer end, and whatever their arguments are, every
    element has after them the classes it had before.  (galleries.js removes
    and adds is-active on the modal instead.) *)
Theorem Part000_modal_code_writes_no_class
    (delay : value) (modal modalParent target : option Node)
    (m c : Node) (w : world) :
  same_classLists w (Part000.animateModal delay modal modalParent target w).2
  /\ same_classLists w (Part000.modalEffect w).2
  /\ same_classLists w (run_callback (Part000Expand m c modalParent) w).2.
Proof.
  split; [|split].
  - revert w. change (preserves same_classLists
                        (Part000.animateModal delay modal modalParent target)).
    unfold Part000.animateModal.
    preserving same_classLists_refl same_classLists_trans same_classLists_leaf.
  - revert w. change (preserves same_classLists Part000.modalEffect).
    unfold Part000.modalEffect, invoke_effect, Part000.animateModal.
    preserving same_classLists_refl same_classLists_trans same_classLists_leaf.
  - revert w. change (preserves same_classLists
                        (run_callback (Part000Expand m c modalParent))).
    unfold run_callback, Part000.expandModal.
    preserving same_classLists_refl same_classLists_trans same_classLists_leaf.
Qed.

(** ** The cards as they are rendered *)

Lemma flat_map_select_imap_one {A} (p : vnode -> bool) (f g : nat -> A -> vnode)
    (l : list A) :
  (forall i x, select p (f i x) = [g i x]) ->
  List.flat_map (select p) (imap f l) = imap g l.
Proof.
  revert f g. induction l as [|x l IH]; intros f g Hf; [done|].
  cbn [imap List.flat_map]. rewrite Hf. simpl. f_equal.
  apply IH. intros i y. apply Hf.
Qed.

Lemma before_split (c : ascii) (s : string) :
  exists rest : string,
    s = String.append (before c s) rest
    /\ (rest = EmptyString \/ exists r, rest = String c r).
Proof.
  induction s as [|a s (rest & Hs & Hrest)].
  - exists EmptyString. by split; [|left].
  - simpl. destruct (Ascii.eqb a c) eqn:E.
    + apply Ascii.eqb_eq in E as ->.
      exists (String c s). split; [done|]. right. by exists s.
    + exists rest. split; [|done].
      change (String a s = String a (String.append (before c s) rest)).
      by f_equal.
Qed.

Lemma before_without (c : ascii) (s : string) :
  ~ List.In c (list_ascii_of_string (before c s)).
Proof.
  induction s as [|a s IH]; simpl; [tauto|].
  destruct (Ascii.eqb a c) eqn:E; simpl; [tauto|].
  apply Ascii.eqb_neq in E. tauto.
Qed.

Lemma select_images (cardSize modalHeight modalWidth : number)
    (data : pageData) (index : prop) :
  select (has_tag "Img")
    (gallery_view cardSize modalHeight modalWidth data index)
  = imap (fun (_ : nat) (image : edge) =>
            Element "Img"
              [("alt", PStr (before "."%char (base (node image))));
               ("className", PStr "h-full w-full");
               ("fluid", PFluid (fluid (childImageSharp (node image))))]
              [])
      (edges (allFile data)).
Proof.
  unfold gallery_view. cbn [select List.flat_map].
  erewrite flat_map_select_imap_one; [|intros i x; reflexivity].
  simpl. by rewrite app_nil_r.
Qed.

(** X17. The alternative text of the images.  The render gives one Img per
    image, in the order of the images, and the [alt] of the [i]-th is the
    base name of the [i]-th image up to its first dot: it has no dot, the
    base name is it followed by nothing (a base name without a dot is its own
    [alt]) or by a text that starts with a dot, and the Img shows the image's
    [fluid] data. *)
Theorem alt_is_the_base_name_before_its_first_dot
    (cardSize modalHeight modalWidth : number) (data : pageData) (w : world)
    (i : nat) (image : edge) (r : completion vnode * world) :
  renders_ok w ->
  edges (allFile data) !! i = Some image ->
  r = Galleries.render cardSize modalHeight modalWidth data w
  \/ r = Part000.render data w ->
  exists (tree img : vnode) (alt rest : string),
    r.1 = Normal tree
    /\ length (select (has_tag "Img") tree) = length (edges (allFile data))
    /\ select (has_tag "Img") tree !! i = Some img
    /\ prop_get "alt" (props_of img) = Some (PStr alt)
    /\ prop_get "fluid" (props_of img)
       = Some (PFluid (fluid (childImageSharp (node image))))
    /\ base (node image) = String.append alt rest
    /\ (rest = EmptyString \/ exists r', rest = String "."%char r')
    /\ ~ List.In "."%char (list_ascii_of_string alt).
Proof.
  intros [index Hindex]%renders_ok_index Hi Hr.
  destruct (before_split "."%char (base (node image))) as (rest & Hbase & Hrest).
  assert (Hrun : exists cs mh mw,
            r = (Normal (gallery_view cs mh mw data index), w)).
  { destruct Hr as [->| ->]; unfold Galleries.render, Part000.render;
      rewrite gallery_render_run, Hindex; by eexists _, _, _. }
  destruct Hrun as (cs & mh & mw & ->).
  eexists _, _, (before "."%char (base (node image))), rest.
  split; [done|]. rewrite select_images, length_imap, list_lookup_imap, Hi.
  repeat split; try done.
  apply before_without.
Qed.

Lemma alt_is_the_base_name_before_its_first_dot_witness :
  exists (tree img : vnode) (alt rest : string),
    (Part000.render demo_data (demo_world None)).1 = Normal tree
    /\ length (select (has_tag "Img") tree) = length (edges (allFile demo_data))
    /\ select (has_tag "Img") tree !! 1%nat = Some img
    /\ prop_get "alt" (props_of img) = Some (PStr alt)
    /\ prop_get "fluid" (props_of img)
       = Some (PFluid (fluid (childImageSharp (node (demo_image "b.jpg")))))
    /\ base (node (demo_image "b.jpg")) = String.append alt rest
    /\ (rest = EmptyString \/ exists r', rest = String "."%char r')
    /\ ~ List.In "."%char (list_ascii_of_string alt).
Proof.
  apply (alt_is_the_base_name_before_its_first_dot Galleries.cardSize
           Galleries.modalHeight Galleries.modalWidth demo_data (demo_world None)
           1 (demo_image "b.jpg")).
  - exact I.
  - reflexivity.
  - right. reflexivity.
Defined.

Lemma select_cards (cardSize modalHeight modalWidth : number)
    (data : pageData) (index : prop) :
  select (vnode_has_class "gallery__card")
    (gallery_view cardSize modalHeight modalWidth data index)
  = imap (fun (i : nat) (image : edge) =>
            match children_of (gallery_card i image) with
            | card :: _ => card
            | [] => Text ""
            end)
      (edges (allFile data)).
Proof.
  unfold gallery_view. cbn [select List.flat_map].
  erewrite flat_map_select_imap_one; [|intros i x; reflexivity].
  simpl. by rewrite app_nil_r.
Qed.

(** X18. The handlers of a rendered card act on that card.  In the tree of
    a render, the elements of class gallery__card are one per image; the
    [i]-th has the ref [cardRefs[i]], and on a page where React attached the
    element [n] to that ref, its [onClick] makes [n] the active card and
    changes nothing else, and its [onMouseDown] gives [n] its default styles
    and changes nothing else. *)
Theorem rendered_handlers_act_on_their_own_card
    (cardSize modalHeight modalWidth : number) (data : pageData) (w : world)
    (i : nat) (image : edge) (n : Node) (e : element)
    (r : completion vnode * world) :
  renders_ok w ->
  edges (allFile data) !! i = Some image ->
  cardRefs w !! i = Some (Some n) ->
  dom w !! n = Some e ->
  r = Galleries.render cardSize modalHeight modalWidth data w
  \/ r = Part000.render data w ->
  exists (tree card : vnode) (click press : handler),
    r.1 = Normal tree
    /\ length (select (vnode_has_class "gallery__card") tree)
       = length (edges (allFile data))
    /\ select (vnode_has_class "gallery__card") tree !! i = Some card
    /\ prop_get "ref" (props_of card) = Some (PRef (CardRef i))
    /\ prop_get "onClick" (props_of card) = Some (PHandler click)
    /\ prop_get "onMouseDown" (props_of card) = Some (PHandler press)
    /\ handle click w = (Normal tt, set_activeCard (Some n) w)
    /\ handle press w
       = (Normal tt, set_dom (<[n := clear_style e]> (dom w)) w).
Proof.
  intros [index Hindex]%renders_ok_index Hi Href He Hr.
  assert (Hrun : exists cs mh mw,
            r = (Normal (gallery_view cs mh mw data index), w)).
  { destruct Hr as [->| ->]; unfold Galleries.render, Part000.render;
      rewrite gallery_render_run, Hindex; by eexists _, _, _. }
  destruct Hrun as (cs & mh & mw & ->).
  eexists _, _, (OnClickCard i), (OnMouseDownCard i).
  split; [done|]. rewrite select_cards, length_imap, list_lookup_imap, Hi.
  split; [done|]. split; [reflexivity|]. do 3 (split; [done|]).
  split.
  - unfold handle, bind, read. by rewrite Href.
  - unfold handle. unfold bind at 1 2 3, read. rewrite Href. cbn [deref ret].
    by apply modifyElement_run.
Qed.

Lemma rendered_handlers_act_on_their_own_card_witness :
  exists (tree card : vnode) (click press : handler),
    (Galleries.render Galleries.cardSize Galleries.modalHeight
       Galleries.modalWidth demo_data (demo_world None)).1 = Normal tree
    /\ length (select (vnode_has_class "gallery__card") tree)
       = length (edges (allFile demo_data))
    /\ select (vnode_has_class "gallery__card") tree !! 1%nat = Some card
    /\ prop_get "ref" (props_of card) = Some (PRef (CardRef 1))
    /\ prop_get "onClick" (props_of card) = Some (PHandler click)
    /\ prop_get "onMouseDown" (props_of card) = Some (PHandler press)
    /\ handle click (demo_world None)
       = (Normal tt, set_activeCard (Some 5%nat) (demo_world None))
    /\ handle press (demo_world None)
       = (Normal tt,
          set_dom (<[5%nat := clear_style demo_card1]> (dom (demo_world None)))
            (demo_world None)).
Proof.
  apply (rendered_handlers_act_on_their_own_card Galleries.cardSize
           Galleries.modalHeight Galleries.modalWidth demo_data (demo_world None)
           1 (demo_image "b.jpg") 5 demo_card1).
  - exact I.
  - reflexivity.
  - reflexivity.
  - reflexivity.
  - left. reflexivity.
Defined.

(** X19. A card whose ref is not attached.  Every ref of [cardRefs] starts
    as null.  While [cardRefs[i].current] is null, a mouse-down on the card
    [i] raises a TypeError and changes nothing; a click completes and makes
    null the active card, after which the modal effect of either version
    completes and changes nothing, and the render gives the GalleryModal
    null as its [activeCardIndex]. *)
Theorem handlers_of_a_card_with_a_null_ref
    (cardSize delay modalHeight modalWidth : number) (data : pageData)
    (w : world) (i : nat) :
  cardRefs w !! i = Some None ->
  handle (OnMouseDownCard i) w = (TypeError, w)
  /\ handle (OnClickCard i) w = (Normal tt, set_activeCard None w)
  /\ Galleries.modalEffect cardSize delay modalHeight modalWidth
       (handle (OnClickCard i) w).2
     = (Normal tt, set_activeCard None w)
  /\ Part000.modalEffect (handle (OnClickCard i) w).2
     = (Normal tt, set_activeCard None w)
  /\ passes_index
       (Galleries.render cardSize modalHeight modalWidth data
          (handle (OnClickCard i) w).2) PNull
  /\ passes_index (Part000.render data (handle (OnClickCard i) w).2) PNull.
Proof.
  intros Href.
  assert (Hclick : handle (OnClickCard i) w = (Normal tt, set_activeCard None w)).
  { unfold handle, bind, read. by rewrite Href. }
  rewrite Hclick. split; [|split; [done|]].
  { unfold handle, bind, read. by rewrite Href. }
  assert (Hin : activeCardIndex_in (set_activeCard None w) = Some PNull) by done.
  split; [done|]. split.
  { rewrite Part000_modalEffect_unfold. done. }
  split; by apply gallery_render_passes.
Qed.

Lemma handlers_of_a_card_with_a_null_ref_witness :
  let w := mkWorld demo_dom [0; 1; 2; 3; 4; 5]%nat 0%nat (Fin 0) []
             (Some 4%nat) [Some 4%nat; None] (Some 2%nat) (Some 1%nat) in
  handle (OnMouseDownCard 1) w = (TypeError, w)
  /\ handle (OnClickCard 1) w = (Normal tt, set_activeCard None w)
  /\ Galleries.modalEffect Galleries.cardSize Galleries.delay
       Galleries.modalHeight Galleries.modalWidth (handle (OnClickCard 1) w).2
     = (Normal tt, set_activeCard None w)
  /\ Part000.modalEffect (handle (OnClickCard 1) w).2
     = (Normal tt, set_activeCard None w)
  /\ passes_index
       (Galleries.render Galleries.cardSize Galleries.modalHeight
          Galleries.modalWidth demo_data (handle (OnClickCard 1) w).2) PNull
  /\ passes_index (Part000.render demo_data (handle (OnClickCard 1) w).2) PNull.
Proof.
  intros w.
  apply (handlers_of_a_card_with_a_null_ref Galleries.cardSize Galleries.delay
           Galleries.modalHeight Galleries.modalWidth demo_data w 1).
  reflexivity.
Defined.
